(** * pretimmo: the mortgage formulas of [formulas.js], [config.js] and [state.js]

    A shallow embedding of the calculation engine of the mortgage simulator.

    Numbers.  JavaScript numbers are IEEE doubles; the embedding idealises
    them as exact rationals ([Q], compared with [==]).  Loan durations are
    whole years ([Z]): the event handlers read them with [parseInt].
    [Math.pow] is only ever applied to an integral number of months, so it is
    [Qpower].  A division by zero, which gives [Infinity] or [NaN] in
    JavaScript, gives [0] in [Q]; a theorem below either carries hypotheses
    that keep the denominators it meets away from zero, or holds whatever
    the computation with the division answers.

    The formulas follow the latest revision of [formulas.js] (the one with
    the gigogne section, which [state.js] and the event handlers call). *)

From Stdlib Require Import QArith Qabs Qround Qpower Qminmax Lqa ZArith List Bool String
  Permutation.
From stdpp Require Import gmap.

Local Open Scope Q_scope.

(* ================================================================== *)
(** ** JavaScript numbers *)
(* ================================================================== *)

(** [!x] on a number: only [0] (and [NaN], not represented) is falsy. *)
Definition falsy (x : Q) : bool := Qeq_bool x 0.

(** [x < y]. *)
Definition Qltb (x y : Q) : bool := negb (Qle_bool y x).

Definition Math_max (a b : Q) : Q := if Qle_bool a b then b else a.
Definition Math_min (a b : Q) : Q := if Qle_bool a b then a else b.
Definition Math_abs (a : Q) : Q := Qabs a.
Definition Math_floor (a : Q) : Q := inject_Z (Qfloor a).
Definition Math_pow (b : Q) (e : Z) : Q := b ^ e.

(** What a JavaScript expression of numeric intent can evaluate to when a
    property is missing: a number, [undefined], or [NaN]. *)
Inductive jsval : Type :=
| Num (q : Q)
| Undefined
| NaN.

Definition js_lift2 (f : Q -> Q -> Q) (a b : jsval) : jsval :=
  match a, b with
  | Num x, Num y => Num (f x y)
  | _, _ => NaN
  end.

Definition js_add := js_lift2 Qplus.
Definition js_sub := js_lift2 Qminus.
Definition js_mul := js_lift2 Qmult.
Definition js_div := js_lift2 Qdiv.

Definition is_Num (v : jsval) : Prop :=
  match v with Num _ => True | _ => False end.

(** [a < b]: false as soon as one side is [undefined] or [NaN]. *)
Definition js_ltb (a b : jsval) : bool :=
  match a, b with
  | Num x, Num y => Qltb x y
  | _, _ => false
  end.

(* ================================================================== *)
(** ** config.js: [FormulaConstants] *)
(* ================================================================== *)

Module FormulaConstants.

Definition debtRatio : Q := 0.35.

Module insuranceRates.
Definition upTo25 : Q := 0.0012.
Definition upTo40 : Q := 0.00235.
Definition upTo50 : Q := 0.00385.
Definition upTo65 : Q := 0.0055.
Definition over65 : Q := 0.0065.
End insuranceRates.

Module emolumentRates.
Definition bracket1 : Q := 0.03870.
Definition bracket2 : Q := 0.01596.
Definition bracket3 : Q := 0.01064.
Definition bracket4 : Q := 0.00799.
End emolumentRates.

Module emolumentThresholds.
Definition tier1 : Q := 6500.
Definition tier2 : Q := 17000.
Definition tier3 : Q := 60000.
End emolumentThresholds.

Definition emolumentTVA : Q := 1.20.

Module propertyTax.
Definition new : Q := 0.00715.
Definition old : Q := 0.058.
End propertyTax.

Definition debours : Q := 1000.

Module contribution.
Definition rate : Q := 0.001.
Definition minimum : Q := 15.
End contribution.

Module caution.
Definition threshold : Q := 500000.
Definition commissionRateLow : Q := 0.012.
Definition commissionFixed : Q := 6000.
Definition commissionRateHigh : Q := 0.005.
Definition fmgRate : Q := 0.005.
Definition minimum : Q := 1000.
End caution.

Module iteration.
Definition maxIterations : nat := 10.
Definition convergenceThreshold : Q := 100.
Definition initialFeesEstimate : Q := 0.10.
End iteration.

End FormulaConstants.

(* ================================================================== *)
(** ** formulas.js, 1: income and capacity *)
(* ================================================================== *)

Definition calcMaxMonthlyPayment (income charges : Q) : Q :=
  let maxPayment := income * FormulaConstants.debtRatio - charges in
  Math_max 0 maxPayment.

(* ================================================================== *)
(** ** formulas.js, 2: insurance *)
(* ================================================================== *)

Definition calcMonthlyInsurance (borrowedCapital insuranceRate : Q) : Q :=
  if falsy borrowedCapital || Qle_bool borrowedCapital 0 || falsy insuranceRate
  then 0
  else (borrowedCapital * insuranceRate) / 12.

(* ================================================================== *)
(** ** formulas.js, 3: rate interpolation *)
(* ================================================================== *)

(** [rates[k]]: a missing property reads as [undefined]. *)
Definition js_get (rates : gmap Z Q) (k : Z) : jsval :=
  match rates !! k with
  | Some v => Num v
  | None => Undefined
  end.

(** The rate table is an object keyed by whole years; [None] stands for a
    [null] or [undefined] table. *)
Definition interpolateRate (duration : Z) (rates : option (gmap Z Q)) : jsval :=
  match rates with
  | None => Num 0
  | Some rates =>
    if (duration =? 0)%Z then Num 0
    else
      let interpolate (d1 d2 : Z) : jsval :=
        let rate1 := js_get rates d1 in
        let rate2 := js_get rates d2 in
        js_add rate1
          (js_div (js_mul (js_sub rate2 rate1) (Num (inject_Z (duration - d1))))
                  (Num (inject_Z (d2 - d1)))) in
      let fallthrough :=
        if (duration <? 15)%Z then js_get rates 15%Z
        else if (duration <=? 20)%Z then interpolate 15%Z 20%Z
        else if (duration <=? 25)%Z then interpolate 20%Z 25%Z
        else js_get rates 25%Z in
      match rates !! duration with
      | Some v => if falsy v then fallthrough else Num v
      | None => fallthrough
      end
  end.

(** The anchors of the table that [interpolateRate] reads for a duration
    that has no usable entry of its own. *)
Definition neededAnchors (duration : Z) : list Z :=
  if (duration <? 15)%Z then [15%Z]
  else if (duration <=? 20)%Z then [15%Z; 20%Z]
  else if (duration <=? 25)%Z then [20%Z; 25%Z]
  else [25%Z].

(* ================================================================== *)
(** ** formulas.js, 4: annuities *)
(* ================================================================== *)

Definition calcMaxLoan (monthlyPayment annualRate : Q) (durationYears : Z) : Q :=
  if falsy monthlyPayment || Qle_bool monthlyPayment 0 || falsy annualRate
     || (durationYears =? 0)%Z
  then 0
  else
    let monthlyRate := annualRate / 12 / 100 in
    let numMonths := (durationYears * 12)%Z in
    if Qeq_bool monthlyRate 0 then monthlyPayment * inject_Z numMonths
    else
      monthlyPayment * (1 - Math_pow (1 + monthlyRate) (- numMonths)) / monthlyRate.

Definition calcMonthlyPayment (loan annualRate : Q) (durationYears : Z) : Q :=
  if falsy loan || Qle_bool loan 0 || falsy annualRate || (durationYears =? 0)%Z
  then 0
  else
    let monthlyRate := annualRate / 12 / 100 in
    let numMonths := (durationYears * 12)%Z in
    if Qeq_bool monthlyRate 0 then loan / inject_Z numMonths
    else
      loan * (monthlyRate * Math_pow (1 + monthlyRate) numMonths) /
      (Math_pow (1 + monthlyRate) numMonths - 1).

(* ================================================================== *)
(** ** formulas.js, 5: notary fees *)
(* ================================================================== *)

Definition calcEmoluments (price : Q) : Q :=
  let emoluments := 0 in
  let '(emoluments, price) :=
    if Qltb FormulaConstants.emolumentThresholds.tier3 price
    then (emoluments + (price - FormulaConstants.emolumentThresholds.tier3)
                       * FormulaConstants.emolumentRates.bracket4,
          FormulaConstants.emolumentThresholds.tier3)
    else (emoluments, price) in
  let '(emoluments, price) :=
    if Qltb FormulaConstants.emolumentThresholds.tier2 price
    then (emoluments + (price - FormulaConstants.emolumentThresholds.tier2)
                       * FormulaConstants.emolumentRates.bracket3,
          FormulaConstants.emolumentThresholds.tier2)
    else (emoluments, price) in
  let '(emoluments, price) :=
    if Qltb FormulaConstants.emolumentThresholds.tier1 price
    then (emoluments + (price - FormulaConstants.emolumentThresholds.tier1)
                       * FormulaConstants.emolumentRates.bracket2,
          FormulaConstants.emolumentThresholds.tier1)
    else (emoluments, price) in
  let emoluments :=
    if Qltb 0 price
    then emoluments + price * FormulaConstants.emolumentRates.bracket1
    else emoluments in
  emoluments * FormulaConstants.emolumentTVA.

Definition calcNotaryFees (propertyPrice : Q) (propertyType : string) : Q :=
  if falsy propertyPrice || Qle_bool propertyPrice 0 then 0
  else
    let emoluments := calcEmoluments propertyPrice in
    let taxes :=
      if String.eqb propertyType "new"
      then propertyPrice * FormulaConstants.propertyTax.new
      else propertyPrice * FormulaConstants.propertyTax.old in
    let debours := FormulaConstants.debours in
    let contribution :=
      Math_max FormulaConstants.contribution.minimum
               (propertyPrice * FormulaConstants.contribution.rate) in
    let totalFees := emoluments + taxes + debours + contribution in
    totalFees.

(* ================================================================== *)
(** ** formulas.js, 6: the loan guarantee (caution) *)
(* ================================================================== *)

Definition calcCautionCreditLogement (loanAmount : Q) : Q :=
  if falsy loanAmount || Qle_bool loanAmount 0 then 0
  else
    let commission :=
      if Qle_bool loanAmount FormulaConstants.caution.threshold
      then loanAmount * FormulaConstants.caution.commissionRateLow
      else FormulaConstants.caution.commissionFixed
           + (loanAmount - FormulaConstants.caution.threshold)
             * FormulaConstants.caution.commissionRateHigh in
    let fmg := loanAmount * FormulaConstants.caution.fmgRate in
    let totalCaution := commission + fmg in
    Math_max FormulaConstants.caution.minimum totalCaution.

(* ================================================================== *)
(** ** formulas.js, 8: required loan for a selected price *)
(* ================================================================== *)

Module RequiredLoan.
Record t : Type := mk
  { loan : Q; caution : Q; notaryFees : Q; totalFees : Q }.
End RequiredLoan.

(** The [while] loop of [calcRequiredLoan].  It returns the final
    [estimatedLoan] together with a ghost counter: how many times the loop
    body was entered (the source's [iterations] does not count the pass that
    leaves through [break]).  [fuel] bounds the recursion; the loop condition
    itself stops at [maxIterations], see [requiredLoanLoop_fuel]. *)
Fixpoint requiredLoanLoop (propertyPrice capital fraisDossier notaryFees : Q)
    (fuel : nat) (estimatedLoan previousLoan : Q) (iterations : nat)
    : Q * nat :=
  match fuel with
  | O => (estimatedLoan, O)
  | S fuel' =>
    if Qltb FormulaConstants.iteration.convergenceThreshold
            (Math_abs (estimatedLoan - previousLoan))
       && (iterations <? FormulaConstants.iteration.maxIterations)%nat
    then
      let previousLoan := estimatedLoan in
      let caution := calcCautionCreditLogement estimatedLoan in
      let totalFees := notaryFees + fraisDossier + caution in
      let estimatedLoan := propertyPrice + totalFees - capital in
      if Qltb estimatedLoan 0 then (0, 1%nat)
      else
        let '(final, entered) :=
          requiredLoanLoop propertyPrice capital fraisDossier notaryFees
            fuel' estimatedLoan previousLoan (S iterations) in
        (final, S entered)
    else (estimatedLoan, O)
  end.

Definition requiredLoanRun (propertyPrice capital fraisDossier : Q)
    (propertyType : string) : Q * nat :=
  let notaryFees := calcNotaryFees propertyPrice propertyType in
  let estimatedLoan :=
    propertyPrice
    + propertyPrice * FormulaConstants.iteration.initialFeesEstimate
    - capital in
  let previousLoan := 0 in
  let iterations := O in
  requiredLoanLoop propertyPrice capital fraisDossier notaryFees
    FormulaConstants.iteration.maxIterations
    estimatedLoan previousLoan iterations.

Definition calcRequiredLoan (propertyPrice capital fraisDossier : Q)
    (propertyType : string) : RequiredLoan.t :=
  if falsy propertyPrice || Qle_bool propertyPrice 0
  then RequiredLoan.mk 0 0 0 0
  else
    let notaryFees := calcNotaryFees propertyPrice propertyType in
    let estimatedLoan :=
      fst (requiredLoanRun propertyPrice capital fraisDossier propertyType) in
    let finalCaution := calcCautionCreditLogement estimatedLoan in
    let finalTotalFees := notaryFees + fraisDossier + finalCaution in
    RequiredLoan.mk (Math_max 0 estimatedLoan) finalCaution notaryFees
                    finalTotalFees.

(** Ghost: the number of times the loop body of [calcRequiredLoan] is
    entered ([0] when the function returns before the loop). *)
Definition requiredLoanPasses (propertyPrice capital fraisDossier : Q)
    (propertyType : string) : nat :=
  if falsy propertyPrice || Qle_bool propertyPrice 0 then O
  else snd (requiredLoanRun propertyPrice capital fraisDossier propertyType).

(* ================================================================== *)
(** ** formulas.js, 9: amortization table *)
(* ================================================================== *)

Module AmortizationRow.
Record t : Type := mk
  { month : Z;
    year : Z;
    payment : Q;
    principalPart : Q;
    interestPart : Q;
    insurance : Q;
    totalPaid : Q;
    remainingCapital : Q }.
End AmortizationRow.

(** The [for (month = 1; month <= numMonths; month++)] loop; the rows are
    pushed in order. *)
Fixpoint amortizationLoop (monthlyRate monthlyPayment monthlyInsurance : Q)
    (numMonths : Z) (fuel : nat) (month : Z) (remainingCapital totalPaid : Q)
    : list AmortizationRow.t :=
  match fuel with
  | O => []
  | S fuel' =>
    if (month <=? numMonths)%Z then
      let interestPart := remainingCapital * monthlyRate in
      let principalPart := monthlyPayment - interestPart in
      let remainingCapital := remainingCapital - principalPart in
      let remainingCapital :=
        if (month =? numMonths)%Z then 0 else remainingCapital in
      let totalPaid := totalPaid + (monthlyPayment + monthlyInsurance) in
      AmortizationRow.mk month (Qceiling (inject_Z month / 12))
        monthlyPayment principalPart interestPart monthlyInsurance totalPaid
        (Math_max 0 remainingCapital)
      :: amortizationLoop monthlyRate monthlyPayment monthlyInsurance
           numMonths fuel' (month + 1)%Z remainingCapital totalPaid
    else []
  end.

Definition generateAmortizationTable (loan annualRate : Q) (durationYears : Z)
    (insuranceRate : Q) : list AmortizationRow.t :=
  if falsy loan || Qle_bool loan 0 || falsy annualRate || (durationYears =? 0)%Z
  then []
  else
    let monthlyRate := annualRate / 12 / 100 in
    let numMonths := (durationYears * 12)%Z in
    let monthlyPayment := calcMonthlyPayment loan annualRate durationYears in
    let monthlyInsurance := calcMonthlyInsurance loan insuranceRate in
    amortizationLoop monthlyRate monthlyPayment monthlyInsurance numMonths
      (Z.to_nat numMonths) 1%Z loan 0.

(** A row is well formed when its two parts add up to the payment (exactly,
    and so within 1e-6) and its remaining capital is not negative. *)
Definition row_ok (row : AmortizationRow.t) : Prop :=
  AmortizationRow.principalPart row + AmortizationRow.interestPart row
  == AmortizationRow.payment row
  /\ Qabs (AmortizationRow.principalPart row
           + AmortizationRow.interestPart row
           - AmortizationRow.payment row) <= 0.000001
  /\ 0 <= AmortizationRow.remainingCapital row.

(* ================================================================== *)
(** ** formulas.js, 10: TAEG *)
(* ================================================================== *)

(** [objectiveFunction], the closure handed to the optimiser. *)
Definition objectiveFunction (loan monthlyPayment : Q) (numMonths : Z)
    (candidateTAEGAnnual : Q) : Q :=
  if Qltb candidateTAEGAnnual 0 || Qltb 50 candidateTAEGAnnual then 10000000000
  else
    let monthlyRateCandidate := candidateTAEGAnnual / 12 / 100 in
    if Qeq_bool monthlyRateCandidate 0 then
      let theoreticalPayment := loan / inject_Z numMonths in
      Math_abs (theoreticalPayment - monthlyPayment)
    else
      let theoreticalPayment :=
        loan
        * (monthlyRateCandidate * Math_pow (1 + monthlyRateCandidate) numMonths)
        / (Math_pow (1 + monthlyRateCandidate) numMonths - 1) in
      Math_abs (theoreticalPayment - monthlyPayment).

Section TAEG.

(** [optimjs.minimize_Powell] is a third-party library: it is given the
    objective and a starting point and either returns [solution.argument[0]]
    or throws ([None]). *)
Variable minimize_Powell : (Q -> Q) -> Q -> option Q.

(** Both ways out through [catch] give [0]: an exception of the optimiser,
    and the out-of-range branch, whose [console.error(..., error)] names a
    variable that is not in scope there (and is followed by [return 0]). *)
Definition calcTAEG (loan monthlyPayment : Q) (durationYears : Z)
    (nominalRate insuranceRate : Q) : Q :=
  if falsy loan || Qle_bool loan 0 || falsy monthlyPayment
     || Qle_bool monthlyPayment 0 || (durationYears =? 0)%Z
  then 0
  else
    let numMonths := (durationYears * 12)%Z in
    let estimatedInsuranceContribution :=
      if falsy insuranceRate then 0.3 else insuranceRate * 100 * 0.5 in
    let startingValue := nominalRate + estimatedInsuranceContribution in
    match minimize_Powell (objectiveFunction loan monthlyPayment numMonths)
                          startingValue with
    | None => 0
    | Some optimizedTAEG =>
      let optimizedTAEG :=
        if Qltb optimizedTAEG nominalRate then nominalRate
        else optimizedTAEG in
      if Qltb optimizedTAEG 0 || Qltb 50 optimizedTAEG then 0
      else optimizedTAEG
    end.

End TAEG.

Section TAEG_previous.

(** The earlier revision of [calcTAEG] differs in its two ways out: the
    out-of-range branch calls [calcTAEG(loan, totalCost, durationYears)],
    leaving [nominalRate] and [insuranceRate] [undefined], and the [catch]
    block returns nothing.  Missing arguments make the starting point [NaN],
    so here the optimiser is given, and may return, any value.  [depth]
    bounds the recursion: a call stack that runs out raises a [RangeError],
    which the [catch] one level up turns into [undefined]. *)
Variable minimize_Powell_js : (Q -> Q) -> jsval -> option jsval.

Fixpoint calcTAEG_previous (depth : nat) (loan monthlyPayment : Q)
    (durationYears : Z) (nominalRate insuranceRate : jsval) : jsval :=
  match depth with
  | O => Undefined
  | S depth' =>
    if falsy loan || Qle_bool loan 0 || falsy monthlyPayment
       || Qle_bool monthlyPayment 0 || (durationYears =? 0)%Z
    then Num 0
    else
      let numMonths := (durationYears * 12)%Z in
      let estimatedInsuranceContribution :=
        match insuranceRate with
        | Num i => if falsy i then Num 0.3 else Num (i * 100 * 0.5)
        | _ => Num 0.3
        end in
      let startingValue := js_add nominalRate estimatedInsuranceContribution in
      match minimize_Powell_js (objectiveFunction loan monthlyPayment numMonths)
                               startingValue with
      | None => Undefined
      | Some optimizedTAEG =>
        let optimizedTAEG :=
          if js_ltb optimizedTAEG nominalRate then nominalRate
          else optimizedTAEG in
        if js_ltb optimizedTAEG (Num 0) || js_ltb (Num 50) optimizedTAEG then
          let totalCost := monthlyPayment * inject_Z durationYears * 12 in
          calcTAEG_previous depth' loan totalCost durationYears
                            Undefined Undefined
        else optimizedTAEG
      end
  end.

End TAEG_previous.

(* ================================================================== *)
(** ** formulas.js, 11: gigogne (layered loan) *)
(* ================================================================== *)

Definition calcAnnuityFactor (r : Q) (n : Z) : Q :=
  if Qeq_bool r 0 then inject_Z n
  else (1 - Math_pow (1 + r) (- n)) / r.

(** The payment [m2] of the secondary loan.  The source writes this block
    out in [calcSmoothMensuality], in [checkConstraints] and in the schedule
    generator; unlike [calcMonthlyPayment] it has a live zero-rate branch.
    Its denominators are not zero for [0 <= r2] and [0 < n2]; outside that
    range (a duration of [0], a rate of [-2400]) the source divides by zero
    and answers [NaN] or an infinity, which [Q] does not have: the theorems
    about the value of [m2] assume that range. *)
Definition secondaryPayment (p2 r2 : Q) (n2 : Z) : Q :=
  let rm2 := r2 / 12 / 100 in
  let nm2 := (n2 * 12)%Z in
  if Qeq_bool rm2 0 then p2 / inject_Z nm2
  else p2 * (rm2 * Math_pow (1 + rm2) nm2) / (Math_pow (1 + rm2) nm2 - 1).

(** [A_r1_n1] is positive for [0 <= r1] and [0 < n1], the range the
    theorems about the smoothed payment assume; at [r1 = -2400] it is zero
    and the source answers an infinity or [NaN]. *)
Definition calcSmoothMensuality (p1 r1 : Q) (n1 : Z) (p2 r2 : Q) (n2 : Z) : Q :=
  if Qltb p1 0 || Qltb p2 0 || (n1 =? 0)%Z || (n2 =? 0)%Z then 0
  else
    let rm1 := r1 / 12 / 100 in
    let nm1 := (n1 * 12)%Z in
    let nm2 := (n2 * 12)%Z in
    let m2 := secondaryPayment p2 r2 n2 in
    let A_r1_n1 := calcAnnuityFactor rm1 nm1 in
    let A_r1_n2 := calcAnnuityFactor rm1 nm2 in
    let M := (p1 + m2 * A_r1_n2) / A_r1_n1 in
    M.

(** The two sides of the test of [checkConstraints]: what is left of the
    smoothed payment for the primary tranche, and the interest the primary
    tranche accrues in a month. *)
Definition primaryPaymentPhase1 (totalLoan r1 : Q) (n1 : Z) (r2 : Q) (n2 : Z)
    (p2 : Q) : Q :=
  let p1 := totalLoan - p2 in
  let M := calcSmoothMensuality p1 r1 n1 p2 r2 n2 in
  let m2 := secondaryPayment p2 r2 n2 in
  M - m2.

Definition primaryInterest (totalLoan r1 p2 : Q) : Q :=
  let rm1 := r1 / 12 / 100 in
  let p1 := totalLoan - p2 in
  p1 * rm1.

Definition checkConstraints (totalLoan r1 : Q) (n1 : Z) (r2 : Q) (n2 : Z)
    (p2 : Q) : bool :=
  Qle_bool (primaryInterest totalLoan r1 p2 - 0.01)
           (primaryPaymentPhase1 totalLoan r1 n1 r2 n2 p2).

(** The [for (let i = 0; i < 20; i++)] bisection; it returns [optimal]. *)
Fixpoint binarySearch (check : Q -> bool) (i : nat) (low high optimal : Q) : Q :=
  match i with
  | O => optimal
  | S i' =>
    let mid := (low + high) / 2 in
    if check mid then binarySearch check i' mid high mid
    else binarySearch check i' low mid optimal
  end.

Definition calcOptimalSecondaryAmount (totalLoan r1 : Q) (n1 : Z) (r2 : Q)
    (n2 : Z) (maxAmount : Q) : Q :=
  if falsy totalLoan || Qle_bool totalLoan 0 then 0
  else
    let absoluteMaxP2 := Math_min maxAmount totalLoan in
    let low := 0 in
    let high := absoluteMaxP2 in
    let optimal := 0 in
    if checkConstraints totalLoan r1 n1 r2 n2 high then high
    else
      Math_floor
        (binarySearch (checkConstraints totalLoan r1 n1 r2 n2) 20 low high
                      optimal).

(* ================================================================== *)
(** ** state.js: the gigogne part of the state *)
(* ================================================================== *)

Module State.



End State.


(* ================================================================== *)
(** ** formulas.js, 1 and 2: totals of items, insurance rate by age *)
(* ================================================================== *)

(** A revenue or a charge: [{id, type, amount, frequency}].  The amount is
    whatever the row holds; [parseFloat(amount) || 0] reads a number as
    itself and anything else as [0]. *)
Module Item.
Record t : Type := mk
  { id : Z; type : string; amount : jsval; frequency : string }.
End Item.

Definition parseFloat_or_0 (v : jsval) : Q :=
  match v with
  | Num q => q
  | _ => 0
  end.

(** The callback of the [reduce] of [calcTotalMonthlyIncome] and of
    [calcTotalMonthlyCharges] (the two functions have the same body). *)
Definition addMonthlyAmount (total : Q) (item : Item.t) : Q :=
  let amount := parseFloat_or_0 (Item.amount item) in
  let monthlyAmount :=
    if String.eqb (Item.frequency item) "yearly" then amount / 12
    else amount in
  total + monthlyAmount.

Definition calcTotalMonthlyIncome (revenues : list Item.t) : Q :=
  match revenues with
  | [] => 0
  | _ => fold_left addMonthlyAmount revenues 0
  end.

Definition calcTotalMonthlyCharges (charges : list Item.t) : Q :=
  match charges with
  | [] => 0
  | _ => fold_left addMonthlyAmount charges 0
  end.

(** Ages are whole years (the handlers read them with [parseInt]). *)
Definition getInsuranceRate (age : Z) : Q :=
  if (age =? 0)%Z || (age <? 0)%Z then 0
  else if (age <=? 25)%Z then FormulaConstants.insuranceRates.upTo25
  else if (age <=? 40)%Z then FormulaConstants.insuranceRates.upTo40
  else if (age <=? 50)%Z then FormulaConstants.insuranceRates.upTo50
  else if (age <=? 65)%Z then FormulaConstants.insuranceRates.upTo65
  else FormulaConstants.insuranceRates.over65.

(* ================================================================== *)
(** ** formulas.js, 7: maximum property price *)
(* ================================================================== *)

Module MaxPrice.
Record t : Type := mk
  { price : Q; notaryFees : Q; caution : Q; totalFees : Q }.
End MaxPrice.

(** The [while] loop of [calcMaxPropertyPrice]; it returns the final
    [estimatedPrice]. *)
Fixpoint maxPriceLoop (capital maxLoan fraisDossier : Q) (propertyType : string)
    (fuel : nat) (estimatedPrice previousPrice : Q) (iterations : nat) : Q :=
  match fuel with
  | O => estimatedPrice
  | S fuel' =>
    if Qltb FormulaConstants.iteration.convergenceThreshold
            (Math_abs (estimatedPrice - previousPrice))
       && (iterations <? FormulaConstants.iteration.maxIterations)%nat
    then
      let previousPrice := estimatedPrice in
      let notaryFees := calcNotaryFees estimatedPrice propertyType in
      let caution := calcCautionCreditLogement maxLoan in
      let totalFees := notaryFees + fraisDossier + caution in
      let estimatedPrice := capital + maxLoan - totalFees in
      maxPriceLoop capital maxLoan fraisDossier propertyType fuel'
                   estimatedPrice previousPrice (S iterations)
    else estimatedPrice
  end.

Definition calcMaxPropertyPrice (capital maxLoan fraisDossier : Q)
    (propertyType : string) : MaxPrice.t :=
  if falsy capital || Qltb capital 0 || falsy maxLoan || Qle_bool maxLoan 0
  then MaxPrice.mk 0 0 0 0
  else
    let estimatedPrice :=
      maxPriceLoop capital maxLoan fraisDossier propertyType
        FormulaConstants.iteration.maxIterations (capital + maxLoan) 0 O in
    let finalNotaryFees := calcNotaryFees estimatedPrice propertyType in
    let finalCaution := calcCautionCreditLogement maxLoan in
    let finalTotalFees := finalNotaryFees + fraisDossier + finalCaution in
    MaxPrice.mk (Math_max 0 estimatedPrice) finalNotaryFees finalCaution
                finalTotalFees.

(** What [checkAffordability] returns; the branch for a loan that is not
    needed leaves [loan] and [loanResult] out. *)
Module Affordability.
Record t : Type := mk
  { affordable : bool;
    totalMonthlyCost : Q;
    shortfall : Q;
    loan : option Q;
    loanResult : option RequiredLoan.t }.
End Affordability.

Definition checkAffordability (capital maxMonthlyPayment fraisDossier : Q)
    (propertyType : string) (annualRate : Q) (durationYears : Z)
    (insuranceRate : Q) (candidatePrice : Q) : Affordability.t :=
  let loanResult :=
    calcRequiredLoan candidatePrice capital fraisDossier propertyType in
  let requiredLoan := RequiredLoan.loan loanResult in
  if Qle_bool requiredLoan 0
  then Affordability.mk true 0 (- maxMonthlyPayment) None None
  else
    let monthlyLoanPayment :=
      calcMonthlyPayment requiredLoan annualRate durationYears in
    let monthlyInsurance := calcMonthlyInsurance requiredLoan insuranceRate in
    let totalMonthlyCost := monthlyLoanPayment + monthlyInsurance in
    let shortfall := totalMonthlyCost - maxMonthlyPayment in
    Affordability.mk (Qle_bool shortfall 0) totalMonthlyCost shortfall
                     (Some requiredLoan) (Some loanResult).

(** The bisection on the price ([tolerance = 100], [maxIterations = 30]);
    it returns [optimalPrice]. *)
Fixpoint priceSearch (affordable : Q -> bool) (fuel : nat)
    (minPrice maxPrice optimalPrice : Q) (iterations : nat) : Q :=
  match fuel with
  | O => optimalPrice
  | S fuel' =>
    if Qltb 100 (maxPrice - minPrice) && (iterations <? 30)%nat then
      let midPrice := (minPrice + maxPrice) / 2 in
      if affordable midPrice
      then priceSearch affordable fuel' midPrice maxPrice midPrice
                       (S iterations)
      else priceSearch affordable fuel' minPrice midPrice optimalPrice
                       (S iterations)
    else optimalPrice
  end.

Module OptimizedPrice.
Record t : Type := mk
  { price : Q;
    notaryFees : Q;
    caution : Q;
    totalFees : Q;
    loan : Q;
    monthlyPayment : Q;
    monthlyInsurance : Q }.
Definition zeros : t := mk 0 0 0 0 0 0 0.
End OptimizedPrice.

Definition optimizeMaxPropertyPriceWithInsurance
    (capital maxMonthlyPayment fraisDossier : Q) (propertyType : string)
    (annualRate : Q) (durationYears : Z) (age : Z) : OptimizedPrice.t :=
  if falsy capital || Qltb capital 0 || falsy maxMonthlyPayment
     || Qle_bool maxMonthlyPayment 0
  then OptimizedPrice.zeros
  else
    let insuranceRate := getInsuranceRate age in
    let initialMaxLoan :=
      calcMaxLoan maxMonthlyPayment annualRate durationYears in
    let initialMaxPriceResult :=
      calcMaxPropertyPrice capital initialMaxLoan fraisDossier propertyType in
    if Qle_bool (MaxPrice.price initialMaxPriceResult) 0
    then OptimizedPrice.zeros
    else
      let check :=
        checkAffordability capital maxMonthlyPayment fraisDossier propertyType
                           annualRate durationYears insuranceRate in
      let minPrice := 0 in
      let maxPrice := MaxPrice.price initialMaxPriceResult in
      let optimalPrice :=
        priceSearch (fun midPrice => Affordability.affordable (check midPrice))
                    30 minPrice maxPrice minPrice O in
      let finalCheck := check optimalPrice in
      match Affordability.loanResult finalCheck with
      | Some loanResult =>
        if Qltb 0 optimalPrice then
          let finalLoan := RequiredLoan.loan loanResult in
          OptimizedPrice.mk optimalPrice
            (RequiredLoan.notaryFees loanResult)
            (RequiredLoan.caution loanResult)
            (RequiredLoan.totalFees loanResult)
            finalLoan
            (calcMonthlyPayment finalLoan annualRate durationYears)
            (calcMonthlyInsurance finalLoan insuranceRate)
        else OptimizedPrice.zeros
      | None => OptimizedPrice.zeros
      end.

(* ================================================================== *)
(** ** formulas.js, 11: the gigogne schedule and the gigogne capacity *)
(* ================================================================== *)

Module GigogneRow.
Record t : Type := mk
  { month : Z;
    year : Z;
    payment : Q;
    paymentP1 : Q;
    paymentP2 : Q;
    principalP1 : Q;
    interestP1 : Q;
    principalP2 : Q;
    interestP2 : Q;
    insurance : Q;
    totalPaid : Q;
    remainingCapitalP1 : Q;
    remainingCapitalP2 : Q;
    remainingCapital : Q }.
End GigogneRow.

(** The [for (month = 1; month <= nm1; month++)] loop of
    [generateGigogneAmortizationTable]. *)
Fixpoint gigogneLoop (M m2 rm1 rm2 totalIns : Q) (nm1 nm2 : Z) (fuel : nat)
    (month : Z) (remP1 remP2 totalPaid : Q) : list GigogneRow.t :=
  match fuel with
  | O => []
  | S fuel' =>
    if (month <=? nm1)%Z then
      let '(pay1, pay2, int1, int2, princ1, princ2) :=
        if (month <=? nm2)%Z then
          let pay2 := m2 in
          let int2 := remP2 * rm2 in
          let princ2 := pay2 - int2 in
          let pay1 := M - m2 in
          let int1 := remP1 * rm1 in
          let princ1 := pay1 - int1 in
          (pay1, pay2, int1, int2, princ1, princ2)
        else
          let pay2 := 0 in
          let int2 := 0 in
          let princ2 := 0 in
          let pay1 := M in
          let int1 := remP1 * rm1 in
          let princ1 := pay1 - int1 in
          (pay1, pay2, int1, int2, princ1, princ2) in
      let remP1 := remP1 - princ1 in
      let remP2 := remP2 - princ2 in
      let remP2 := if (month =? nm2)%Z then 0 else remP2 in
      let remP1 := if (month =? nm1)%Z then 0 else remP1 in
      let remP1 := if Qltb remP1 0 then 0 else remP1 in
      let remP2 := if Qltb remP2 0 then 0 else remP2 in
      let totalPaid := totalPaid + (pay1 + pay2 + totalIns) in
      GigogneRow.mk month (Qceiling (inject_Z month / 12)) (pay1 + pay2)
        pay1 pay2 princ1 int1 princ2 int2 totalIns totalPaid remP1 remP2
        (remP1 + remP2)
      :: gigogneLoop M m2 rm1 rm2 totalIns nm1 nm2 fuel' (month + 1)%Z
           remP1 remP2 totalPaid
    else []
  end.

Definition generateGigogneAmortizationTable (p1 r1 : Q) (n1 : Z) (p2 r2 : Q)
    (n2 : Z) (insuranceRate : Q) : list GigogneRow.t :=
  let M := calcSmoothMensuality p1 r1 n1 p2 r2 n2 in
  let rm1 := r1 / 12 / 100 in
  let rm2 := r2 / 12 / 100 in
  let nm1 := (n1 * 12)%Z in
  let nm2 := (n2 * 12)%Z in
  let m2 := secondaryPayment p2 r2 n2 in
  let ins1 := calcMonthlyInsurance p1 insuranceRate in
  let ins2 := calcMonthlyInsurance p2 insuranceRate in
  let totalIns := ins1 + ins2 in
  gigogneLoop M m2 rm1 rm2 totalIns nm1 nm2 (Z.to_nat nm1) 1%Z p1 p2 0.

(** A row of the gigogne schedule is well formed when the borrower pays the
    smoothed payment [M], split between the two tranches, each tranche's
    payment is its interest plus its principal, and no remaining capital is
    negative. *)
Definition gigogneRow_ok (M : Q) (row : GigogneRow.t) : Prop :=
  GigogneRow.payment row == M
  /\ GigogneRow.paymentP1 row + GigogneRow.paymentP2 row
     == GigogneRow.payment row
  /\ GigogneRow.principalP1 row + GigogneRow.interestP1 row
     == GigogneRow.paymentP1 row
  /\ GigogneRow.principalP2 row + GigogneRow.interestP2 row
     == GigogneRow.paymentP2 row
  /\ 0 <= GigogneRow.remainingCapitalP1 row
  /\ 0 <= GigogneRow.remainingCapitalP2 row
  /\ GigogneRow.remainingCapital row
     = GigogneRow.remainingCapitalP1 row + GigogneRow.remainingCapitalP2 row.

Module GigogneCapacity.
Record t : Type := mk { totalLoan : Q; p1 : Q; p2 : Q }.
End GigogneCapacity.

(** [checkNegAmort], the closure of [calcMaxLoanWithGigogne]. *)
Definition checkNegAmort (monthlyPayment capacityConstant ratio A2_n2 rm1 : Q)
    (valP2 : Q) : bool :=
  let valP1 := capacityConstant - valP2 * ratio in
  let m2 := valP2 / A2_n2 in
  let primaryPay := monthlyPayment - m2 in
  let primaryInt := valP1 * rm1 in
  Qle_bool (primaryInt - 0.01) primaryPay.

Definition calcMaxLoanWithGigogne (monthlyPayment r1 : Q) (n1 : Z) (r2 : Q)
    (n2 : Z) (maxP2 : Q) : GigogneCapacity.t :=
  let rm1 := r1 / 12 / 100 in
  let rm2 := r2 / 12 / 100 in
  let nm1 := (n1 * 12)%Z in
  let nm2 := (n2 * 12)%Z in
  let A1_n1 := calcAnnuityFactor rm1 nm1 in
  let A1_n2 := calcAnnuityFactor rm1 nm2 in
  let A2_n2 := calcAnnuityFactor rm2 nm2 in
  let ratio := A1_n2 / A2_n2 in
  let capacityConstant := monthlyPayment * A1_n1 in
  let p2 := maxP2 in
  let p1 := capacityConstant - p2 * ratio in
  let '(p1, p2) :=
    if Qltb p1 0 then (0, capacityConstant / ratio) else (p1, p2) in
  let check := checkNegAmort monthlyPayment capacityConstant ratio A2_n2 rm1 in
  let '(p1, p2) :=
    if check p2 then (p1, p2)
    else
      let low := 0 in
      let high := p2 in
      let optimal := 0 in
      let p2 := binarySearch check 20 low high optimal in
      (capacityConstant - p2 * ratio, p2) in
  GigogneCapacity.mk (p1 + p2) p1 p2.

(* ================================================================== *)
(** ** ui.js: the yearly view of the amortization table *)
(* ================================================================== *)

(** The body of the [forEach] of [aggregateYearly]: the accumulator is
    [(yearly, currentYear, yearData)], with [None] for [null]; rows are
    pushed at the end of [yearly]. *)
Definition aggregateStep
    (acc : list AmortizationRow.t * option Z * option AmortizationRow.t)
    (indexed : nat * AmortizationRow.t)
    : list AmortizationRow.t * option Z * option AmortizationRow.t :=
  let '(index, row) := indexed in
  let '(yearly, currentYear, yearData) := acc in
  let year := Qceiling (inject_Z (Z.of_nat index + 1) / 12) in
  let '(yearly, currentYear, yearData) :=
    if match currentYear with
       | Some c => negb (year =? c)%Z
       | None => true
       end
    then
      (match yearData with
       | Some done => yearly ++ [done]
       | None => yearly
       end,
       Some year,
       Some (AmortizationRow.mk (Z.of_nat index + 1) year 0 0 0 0
               (AmortizationRow.totalPaid row)
               (AmortizationRow.remainingCapital row)))
    else (yearly, currentYear, yearData) in
  let yearData :=
    match yearData with
    | Some y =>
      Some (AmortizationRow.mk
              (AmortizationRow.month y) (AmortizationRow.year y)
              (AmortizationRow.payment y + AmortizationRow.payment row)
              (AmortizationRow.principalPart y
               + AmortizationRow.principalPart row)
              (AmortizationRow.interestPart y
               + AmortizationRow.interestPart row)
              (AmortizationRow.insurance y + AmortizationRow.insurance row)
              (AmortizationRow.totalPaid row)
              (AmortizationRow.remainingCapital row))
    | None => None
    end in
  (yearly, currentYear, yearData).

(** [data.forEach((row, index) => ...)]: the rows with their indices. *)
Fixpoint indexedFrom {A : Type} (index : nat) (data : list A) : list (nat * A) :=
  match data with
  | [] => []
  | row :: rest => (index, row) :: indexedFrom (S index) rest
  end.

Definition aggregateYearly (data : list AmortizationRow.t)
    : list AmortizationRow.t :=
  let '(yearly, _, yearData) :=
    fold_left aggregateStep (indexedFrom 0 data) ([], None, None) in
  match yearData with
  | Some done => yearly ++ [done]
  | None => yearly
  end.

(** Sum of a column. *)
Definition Qsum (l : list Q) : Q := fold_right Qplus 0 l.

(** A weighted mix of the four columns that [aggregateYearly] adds up. *)
Definition columnMix (wPayment wPrincipal wInterest wInsurance : Q)
    (row : AmortizationRow.t) : Q :=
  wPayment * AmortizationRow.payment row
  + wPrincipal * AmortizationRow.principalPart row
  + wInterest * AmortizationRow.interestPart row
  + wInsurance * AmortizationRow.insurance row.

(** The state of [aggregateYearly] after [k] rows: nothing yet, or a year in
    progress, [(k + 11) / 12], with the earlier years pushed; [total] is
    what the pushed years and the year in progress hold of a column mix. *)
Definition aggregateInvariant (mix : AmortizationRow.t -> Q) (k : nat)
    (acc : list AmortizationRow.t * option Z * option AmortizationRow.t)
    (total : Q) : Prop :=
  match k with
  | O => acc = ([], None, None) /\ total == 0
  | S _ =>
    exists yearly current,
      acc = (yearly, Some ((Z.of_nat k + 11) / 12)%Z, Some current)
      /\ (Z.of_nat (length yearly) + 1 = (Z.of_nat k + 11) / 12)%Z
      /\ Qsum (map mix yearly) + mix current == total
  end.

(* ================================================================== *)
(** ** state.js: the lists of revenues and charges *)
(* ================================================================== *)

Module ItemStore.

(** What [addRevenue] and [addCharge] are given: an item without [id]. *)
Record input : Type := mkInput
  { inputType : string; inputAmount : jsval; inputFrequency : string }.

(** [idCounter] and the two lists; one counter serves both lists. *)
Record t : Type := mk
  { idCounter : Z; revenues : list Item.t; charges : list Item.t }.

(** [ItemDefaults.revenue]. *)
Definition defaultRevenue : input := mkInput "Salaire" (Num 2800) "monthly".

Definition withId (newId : Z) (item : input) : Item.t :=
  Item.mk newId (inputType item) (inputAmount item) (inputFrequency item).

(** The state when the module is loaded: the default revenue took id 1. *)
Definition initial : t := mk 2 [withId 1 defaultRevenue] [].

(** [addRevenue(item)]: the new state and the item returned. *)
Definition addRevenue (item : input) (s : t) : t * Item.t :=
  let newRevenue := withId (idCounter s) item in
  (mk (idCounter s + 1) (revenues s ++ [newRevenue]) (charges s), newRevenue).

Definition removeRevenue (id : Z) (s : t) : t :=
  mk (idCounter s)
     (filter (fun r => negb (Item.id r =? id)%Z) (revenues s))
     (charges s).

Definition addCharge (item : input) (s : t) : t * Item.t :=
  let newCharge := withId (idCounter s) item in
  (mk (idCounter s + 1) (revenues s) (charges s ++ [newCharge]), newCharge).

Definition removeCharge (id : Z) (s : t) : t :=
  mk (idCounter s) (revenues s)
     (filter (fun c => negb (Item.id c =? id)%Z) (charges s)).

(** [reset()], as far as the lists go: the default revenue takes the
    current counter value, then the counter is set back to 1. *)
Definition reset (s : t) : t :=
  mk 1 [withId (idCounter s) defaultRevenue] [].

(** All ids in use, revenues first. *)
Definition ids (s : t) : list Z :=
  map Item.id (revenues s) ++ map Item.id (charges s).

(** The ids in use are pairwise different and below the counter. *)
Definition ids_fresh (s : t) : Prop :=
  NoDup (ids s) /\ Forall (fun i => (i < idCounter s)%Z) (ids s).

End ItemStore.

(* ================================================================== *)
(** * Properties *)
(* ================================================================== *)

(** ** Boolean tests as propositions *)

Lemma Qle_bool_false (x y : Q) : Qle_bool x y = false <-> y < x.
Proof.
  split; intros H.
  - apply Qnot_le_lt. intros Hle. apply Qle_bool_iff in Hle. congruence.
  - destruct (Qle_bool x y) eqn:E; [|reflexivity].
    apply Qle_bool_iff in E. exfalso. apply (Qlt_not_le _ _ H E).
Qed.

Lemma Qltb_true (x y : Q) : Qltb x y = true <-> x < y.
Proof.
  unfold Qltb. rewrite negb_true_iff. apply Qle_bool_false.
Qed.

Lemma Qltb_false (x y : Q) : Qltb x y = false <-> y <= x.
Proof.
  unfold Qltb. rewrite negb_false_iff. apply Qle_bool_iff.
Qed.

Lemma falsy_true (x : Q) : falsy x = true <-> x == 0.
Proof. apply Qeq_bool_iff. Qed.

Lemma falsy_false (x : Q) : falsy x = false <-> ~ x == 0.
Proof.
  unfold falsy. split; intros H.
  - apply Qeq_bool_neq, H.
  - destruct (Qeq_bool x 0) eqn:E; [|reflexivity].
    apply Qeq_bool_iff in E. contradiction.
Qed.

Lemma Qeq_bool_false (x y : Q) : Qeq_bool x y = false <-> ~ x == y.
Proof.
  split; intros H.
  - apply Qeq_bool_neq, H.
  - destruct (Qeq_bool x y) eqn:E; [|reflexivity].
    apply Qeq_bool_iff in E. contradiction.
Qed.

(** Case analysis on the first comparison of the goal, with the outcome as a
    proposition in the context. *)
Ltac qtest :=
  match goal with
  | |- context [Qle_bool ?a ?b] =>
      let E := fresh "E" in
      destruct (Qle_bool a b) eqn:E;
      [apply Qle_bool_iff in E | apply Qle_bool_false in E]
  | |- context [Qeq_bool ?a ?b] =>
      let E := fresh "E" in
      destruct (Qeq_bool a b) eqn:E;
      [apply Qeq_bool_iff in E | apply Qeq_bool_false in E]
  end.

Ltac qtests := unfold falsy, Qltb, Math_max, Math_min in *; repeat qtest.

Lemma Math_max_spec (a b : Q) :
  a <= Math_max a b /\ b <= Math_max a b
  /\ (Math_max a b = a \/ Math_max a b = b).
Proof. qtests; repeat split; auto; lra. Qed.


Lemma Math_max_mono (a b c : Q) : b <= c -> Math_max a b <= Math_max a c.
Proof. intros H. qtests; lra. Qed.

Lemma guard_pass (x : Q) : 0 < x -> falsy x || Qle_bool x 0 = false.
Proof.
  intros H. apply orb_false_iff. split.
  - apply falsy_false. lra.
  - apply Qle_bool_false. exact H.
Qed.

(** ** Annuities *)

Lemma monthly_rate_scale (r : Q) : r / 12 / 100 == r * (1 # 1200).
Proof. field. Qed.

Section Annuity.

Variables (annualRate : Q) (durationYears : Z).
Hypothesis rate_pos : 0 < annualRate.
Hypothesis years_pos : (0 < durationYears)%Z.

Let monthlyRate : Q := annualRate / 12 / 100.
Let numMonths : Z := (durationYears * 12)%Z.
Let growth : Q := Math_pow (1 + monthlyRate) numMonths.

Lemma monthlyRate_pos : 0 < monthlyRate.
Proof using rate_pos.
  unfold monthlyRate. rewrite monthly_rate_scale. lra.
Qed.

Lemma growth_gt_1 : 1 < growth.
Proof using rate_pos years_pos.
  unfold growth, Math_pow. apply Qpower_1_lt.
  - pose proof monthlyRate_pos. lra.
  - unfold numMonths. lia.
Qed.

Lemma calcMonthlyPayment_annuity (loan : Q) :
  0 < loan ->
  calcMonthlyPayment loan annualRate durationYears
  = loan * (monthlyRate * growth) / (growth - 1).
Proof using rate_pos years_pos.
  intros Hl. unfold calcMonthlyPayment.
  rewrite (guard_pass loan Hl).
  replace (falsy annualRate) with false
    by (symmetry; apply falsy_false; lra).
  replace (durationYears =? 0)%Z with false
    by (symmetry; apply Z.eqb_neq; lia).
  cbn [orb]. fold monthlyRate.
  replace (Qeq_bool monthlyRate 0) with false
    by (symmetry; apply Qeq_bool_false; pose proof monthlyRate_pos; lra).
  reflexivity.
Qed.

Lemma calcMonthlyPayment_pos (loan : Q) :
  0 < loan -> 0 < calcMonthlyPayment loan annualRate durationYears.
Proof using rate_pos years_pos.
  intros Hl. rewrite (calcMonthlyPayment_annuity loan Hl).
  pose proof monthlyRate_pos as Hr. pose proof growth_gt_1 as Hg.
  apply Qlt_shift_div_l; [lra|].
  rewrite Qmult_0_l.
  apply Qmult_lt_0_compat; [exact Hl|].
  apply Qmult_lt_0_compat; lra.
Qed.

Lemma calcMaxLoan_annuity (monthlyPayment : Q) :
  0 < monthlyPayment ->
  calcMaxLoan monthlyPayment annualRate durationYears
  == monthlyPayment * (1 - / growth) / monthlyRate.
Proof using rate_pos years_pos.
  intros Hm. unfold calcMaxLoan.
  rewrite (guard_pass monthlyPayment Hm).
  replace (falsy annualRate) with false
    by (symmetry; apply falsy_false; lra).
  replace (durationYears =? 0)%Z with false
    by (symmetry; apply Z.eqb_neq; lia).
  cbn [orb]. fold monthlyRate.
  replace (Qeq_bool monthlyRate 0) with false
    by (symmetry; apply Qeq_bool_false; pose proof monthlyRate_pos; lra).
  fold numMonths. unfold Math_pow at 1. rewrite Qpower_opp.
  reflexivity.
Qed.

End Annuity.

(** C1. Round trip: for a principal, an annual rate and a duration that are
    all positive, the loan that [calcMaxLoan] reconstructs from the payment
    computed by [calcMonthlyPayment] (same rate, same duration) is the
    principal again.  In exact arithmetic the two are equal, so they agree
    within every tolerance [eps >= 0]. *)
Theorem calcMaxLoan_calcMonthlyPayment_roundtrip
    (P r : Q) (n : Z) (eps : Q) :
  0 < P -> 0 < r -> (0 < n)%Z -> 0 <= eps ->
  calcMaxLoan (calcMonthlyPayment P r n) r n == P
  /\ Qabs (calcMaxLoan (calcMonthlyPayment P r n) r n - P) <= eps.
Proof.
  intros HP Hr Hn Heps.
  assert (Heq : calcMaxLoan (calcMonthlyPayment P r n) r n == P).
  { rewrite (calcMaxLoan_annuity r n Hr Hn _ (calcMonthlyPayment_pos r n Hr Hn P HP)).
    rewrite (calcMonthlyPayment_annuity r n Hr Hn P HP).
    pose proof (monthlyRate_pos r Hr) as Hm.
    pose proof (growth_gt_1 r n Hr Hn) as Hg.
    cbv zeta in Hm, Hg.
    set (m := r / 12 / 100) in *.
    set (g := Math_pow (1 + m) (n * 12)) in *.
    field. repeat split; lra. }
  split; [exact Heq|].
  rewrite Heq. unfold Qminus. rewrite Qplus_opp_r. exact Heps.
Qed.

Lemma calcMaxLoan_calcMonthlyPayment_roundtrip_witness :
  calcMaxLoan (calcMonthlyPayment 1000 3 1) 3 1 == 1000
  /\ Qabs (calcMaxLoan (calcMonthlyPayment 1000 3 1) 3 1 - 1000) <= 0.
Proof.
  apply (calcMaxLoan_calcMonthlyPayment_roundtrip 1000 3 1 0);
    [reflexivity | reflexivity | reflexivity | discriminate].
Defined.

(** C6 (as the code behaves).  With an annual rate of [0] the guard
    [!annualRate] fires first: [calcMonthlyPayment] returns [0], whatever the
    principal and the duration, and the straight-line branch
    [loan / numMonths] below it is never reached.  At principal [1200] over
    one year the straight-line payment would be [100]. *)
Theorem calcMonthlyPayment_zero_rate_returns_zero :
  (forall (principal : Q) (years : Z), calcMonthlyPayment principal 0 years = 0)
  /\ calcMonthlyPayment 1200 0 1 == 0
  /\ 1200 / inject_Z (1 * 12) == 100
  /\ ~ calcMonthlyPayment 1200 0 1 == 1200 / inject_Z (1 * 12).
Proof.
  split; [|split; [|split]].
  - intros principal years. unfold calcMonthlyPayment.
    replace (falsy 0) with true by reflexivity.
    rewrite !orb_true_r. reflexivity.
  - reflexivity.
  - reflexivity.
  - discriminate.
Qed.

(** ** Fees *)

(** Up to and including the tier-3 threshold the bracket-4 rate does not
    occur: a price of the third bracket pays bracket 3 on what exceeds
    17000 and the two lower brackets in full. *)
Lemma calcEmoluments_tier3 (price : Q) :
  17000 < price -> price <= 60000 ->
  calcEmoluments price
  == ((price - 17000) * FormulaConstants.emolumentRates.bracket3
      + (17000 - 6500) * FormulaConstants.emolumentRates.bracket2
      + 6500 * FormulaConstants.emolumentRates.bracket1)
     * FormulaConstants.emolumentTVA.
Proof.
  intros Hlo Hhi. unfold calcEmoluments.
  unfold FormulaConstants.emolumentThresholds.tier3,
    FormulaConstants.emolumentThresholds.tier2,
    FormulaConstants.emolumentThresholds.tier1.
  replace (Qltb 60000 price) with false by (symmetry; apply Qltb_false; lra).
  replace (Qltb 17000 price) with true by (symmetry; apply Qltb_true; lra).
  replace (Qltb 6500 17000) with true by reflexivity.
  replace (Qltb 0 6500) with true by reflexivity.
  ring.
Qed.

(** C9. At the tier-3 boundary, price [60000], the top bracket contributes
    nothing: the emoluments are the three lower brackets, filled up to their
    thresholds, times the TVA factor, that is 1051.98. *)
Theorem calcEmoluments_tier3_boundary :
  calcEmoluments 60000
  == ((60000 - 17000) * FormulaConstants.emolumentRates.bracket3
      + (17000 - 6500) * FormulaConstants.emolumentRates.bracket2
      + 6500 * FormulaConstants.emolumentRates.bracket1)
     * FormulaConstants.emolumentTVA
  /\ calcEmoluments 60000 == 1051.98.
Proof.
  assert (H := calcEmoluments_tier3 60000).
  split.
  - apply H; [reflexivity | discriminate].
  - rewrite H; [reflexivity | reflexivity | discriminate].
Qed.

(** Just above the boundary the top bracket starts to contribute. *)
Example calcEmoluments_above_tier3 :
  calcEmoluments 60100
  == calcEmoluments 60000
     + 100 * FormulaConstants.emolumentRates.bracket4
       * FormulaConstants.emolumentTVA.
Proof. reflexivity. Qed.

(** C10. The monthly budget is the 35 % rule clamped at zero:
    [max(0, income * 0.35 - charges)], hence never negative, also when the
    charges exceed 35 % of the income. *)
Theorem calcMaxMonthlyPayment_clamped (income charges : Q) :
  calcMaxMonthlyPayment income charges == Qmax 0 (income * 0.35 - charges)
  /\ 0 <= calcMaxMonthlyPayment income charges.
Proof.
  unfold calcMaxMonthlyPayment, FormulaConstants.debtRatio.
  set (m := income * 0.35 - charges).
  assert (Hmax : Math_max 0 m == Qmax 0 m).
  { destruct (Q.max_spec 0 m) as [[H ->]|[H ->]]; qtests; lra. }
  split; [exact Hmax|].
  apply (Math_max_spec 0 m).
Qed.

(** For instance, an income of 2000 with charges of 900 (more than the 700
    that the rule allows) leaves a budget of [0], not [-200]. *)
Example calcMaxMonthlyPayment_charges_exceed :
  calcMaxMonthlyPayment 2000 900 == 0
  /\ calcMaxMonthlyPayment 2800 0 == 980.
Proof. split; reflexivity. Qed.

(** ** Amortization table *)

Section Amortization.

Variables (monthlyRate monthlyPayment monthlyInsurance : Q) (numMonths : Z).

Let loop := amortizationLoop monthlyRate monthlyPayment monthlyInsurance
                             numMonths.

Lemma amortizationLoop_length (fuel : nat) (month : Z) (remaining paid : Q) :
  (month + Z.of_nat fuel = numMonths + 1)%Z ->
  length (loop fuel month remaining paid) = fuel.
Proof.
  revert month remaining paid.
  induction fuel as [|fuel IH]; intros month remaining paid Hm; [reflexivity|].
  unfold loop in *. cbn [amortizationLoop].
  replace (month <=? numMonths)%Z with true by (symmetry; apply Z.leb_le; lia).
  cbn [length]. f_equal. apply IH. lia.
Qed.

Lemma amortizationLoop_rows (fuel : nat) (month : Z) (remaining paid : Q) :
  Forall row_ok (loop fuel month remaining paid).
Proof.
  revert month remaining paid.
  induction fuel as [|fuel IH]; intros month remaining paid;
    [constructor|].
  unfold loop in *. cbn [amortizationLoop].
  destruct (month <=? numMonths)%Z; [|constructor].
  constructor; [|apply IH].
  unfold row_ok.
  cbn [AmortizationRow.principalPart AmortizationRow.interestPart
       AmortizationRow.payment AmortizationRow.remainingCapital].
  assert (Hsum : monthlyPayment - remaining * monthlyRate
                 + remaining * monthlyRate == monthlyPayment) by ring.
  split; [exact Hsum|]. split.
  - rewrite Hsum. unfold Qminus. rewrite Qplus_opp_r. discriminate.
  - apply Math_max_spec.
Qed.

Lemma amortizationLoop_last (fuel : nat) (month : Z) (remaining paid : Q) :
  (month + Z.of_nat (S fuel) = numMonths + 1)%Z ->
  exists row,
    last (loop (S fuel) month remaining paid) = Some row
    /\ AmortizationRow.month row = numMonths
    /\ AmortizationRow.remainingCapital row = 0.
Proof.
  revert month remaining paid.
  induction fuel as [|fuel IH]; intros month remaining paid Hm.
  - unfold loop. cbn [amortizationLoop].
    replace (month <=? numMonths)%Z with true
      by (symmetry; apply Z.leb_le; lia).
    replace (month =? numMonths)%Z with true
      by (symmetry; apply Z.eqb_eq; lia).
    eexists. split; [reflexivity|]. cbn. split; [lia | reflexivity].
  - destruct (IH (month + 1)%Z
                (if (month =? numMonths)%Z then 0
                 else remaining - (monthlyPayment - remaining * monthlyRate))
                (paid + (monthlyPayment + monthlyInsurance)))
      as (row & Hlast & Hrow); [lia|].
    exists row. split; [|exact Hrow].
    unfold loop in *.
    remember (S fuel) as k eqn:Hk.
    cbn [amortizationLoop].
    replace (month <=? numMonths)%Z with true
      by (symmetry; apply Z.leb_le; lia).
    rewrite Hk in *.
    rewrite last_cons. rewrite Hlast. reflexivity.
Qed.

End Amortization.

(** C2. For a positive loan, a positive annual rate and a positive duration,
    the table of [generateAmortizationTable] has [durationYears * 12] rows;
    in every row the principal part and the interest part add up to the
    payment (exactly, hence within 1e-6) and the remaining capital is not
    negative; and the last row, that of month [durationYears * 12], has a
    remaining capital of exactly [0]. *)
Theorem generateAmortizationTable_invariants
    (loan annualRate : Q) (durationYears : Z) (insuranceRate : Q) :
  0 < loan -> 0 < annualRate -> (0 < durationYears)%Z ->
  let table :=
    generateAmortizationTable loan annualRate durationYears insuranceRate in
  Z.of_nat (length table) = (durationYears * 12)%Z
  /\ Forall row_ok table
  /\ exists row,
       last table = Some row
       /\ AmortizationRow.month row = (durationYears * 12)%Z
       /\ AmortizationRow.remainingCapital row = 0.
Proof.
  intros Hl Hr Hn table. subst table. unfold generateAmortizationTable.
  rewrite (guard_pass loan Hl).
  replace (falsy annualRate) with false by (symmetry; apply falsy_false; lra).
  replace (durationYears =? 0)%Z with false by (symmetry; apply Z.eqb_neq; lia).
  cbn [orb]. cbv zeta.
  split; [|split].
  - rewrite amortizationLoop_length; lia.
  - apply amortizationLoop_rows.
  - destruct (Z.to_nat (durationYears * 12)) as [|k] eqn:Hk; [lia|].
    apply amortizationLoop_last. lia.
Qed.

Lemma generateAmortizationTable_invariants_witness :
  let table := generateAmortizationTable 1200 3 1 0.0012 in
  Z.of_nat (length table) = (1 * 12)%Z
  /\ Forall row_ok table
  /\ exists row,
       last table = Some row
       /\ AmortizationRow.month row = (1 * 12)%Z
       /\ AmortizationRow.remainingCapital row = 0.
Proof.
  apply (generateAmortizationTable_invariants 1200 3 1 0.0012);
    [reflexivity | reflexivity | reflexivity].
Defined.

(** ** Effective rate (TAEG) *)

Section TAEG_properties.

Variable minimize_Powell : (Q -> Q) -> Q -> option Q.




(** A nominal rate above 50 never comes back: with any optimiser, the
    clamped value leaves the accepted range and the result is [0]. *)
Lemma calcTAEG_nominal_above_50
    (loan monthlyPayment : Q) (durationYears : Z)
    (nominalRate insuranceRate : Q) :
  50 < nominalRate ->
  calcTAEG minimize_Powell loan monthlyPayment durationYears nominalRate
           insuranceRate == 0.
Proof.
  intros H. unfold calcTAEG.
  destruct (_ || _ || _ || _ || _); [reflexivity|]. cbv zeta.
  destruct (minimize_Powell _ _) as [x|]; [|reflexivity].
  qtests; cbn [negb orb] in *; lra.
Qed.


End TAEG_properties.


(** In the earlier revision a failure of the optimiser on a valid request
    gives [undefined]. *)
Lemma calcTAEG_previous_optimiser_failure
    (depth : nat) (loan monthlyPayment : Q) (durationYears : Z)
    (nominalRate insuranceRate : jsval) :
  0 < loan -> 0 < monthlyPayment -> (0 < durationYears)%Z ->
  calcTAEG_previous (fun _ _ => None) (S depth) loan monthlyPayment
                    durationYears nominalRate insuranceRate
  = Undefined.
Proof.
  intros Hl Hm Hn. cbn [calcTAEG_previous].
  replace (falsy loan) with false by (symmetry; apply falsy_false; lra).
  replace (Qle_bool loan 0) with false by (symmetry; apply Qle_bool_false, Hl).
  replace (falsy monthlyPayment) with false
    by (symmetry; apply falsy_false; lra).
  replace (Qle_bool monthlyPayment 0) with false
    by (symmetry; apply Qle_bool_false, Hm).
  replace (durationYears =? 0)%Z with false by (symmetry; apply Z.eqb_neq; lia).
  reflexivity.
Qed.


(** ** Rate interpolation *)

Lemma js_get_Some (rates : gmap Z Q) (k : Z) :
  is_Some (rates !! k) -> is_Num (js_get rates k).
Proof. intros [v Hv]. unfold js_get. rewrite Hv. exact I. Qed.

Lemma js_get_None (rates : gmap Z Q) (k : Z) :
  rates !! k = None -> js_get rates k = Undefined.
Proof. intros H. unfold js_get. rewrite H. reflexivity. Qed.

(** With the three anchors in the table, a duration without an entry of its
    own gets the rate of anchor 15 below 15 years, that of anchor 25 above
    25 years, and the linear interpolation of its two neighbours between. *)
Lemma interpolateRate_complete_table
    (duration : Z) (rates : gmap Z Q) (r15 r20 r25 : Q) :
  (0 < duration)%Z ->
  rates !! 15%Z = Some r15 -> rates !! 20%Z = Some r20 ->
  rates !! 25%Z = Some r25 -> rates !! duration = None ->
  interpolateRate duration (Some rates)
  = Num (if (duration <? 15)%Z then r15
         else if (duration <=? 20)%Z then
           r15 + (r20 - r15) * inject_Z (duration - 15) / inject_Z (20 - 15)
         else if (duration <=? 25)%Z then
           r20 + (r25 - r20) * inject_Z (duration - 20) / inject_Z (25 - 20)
         else r25).
Proof.
  intros Hpos H15 H20 H25 Hnone. unfold interpolateRate.
  replace (duration =? 0)%Z with false by (symmetry; apply Z.eqb_neq; lia).
  rewrite Hnone. unfold js_get. rewrite H15, H20, H25.
  destruct (duration <? 15)%Z; [reflexivity|].
  destruct (duration <=? 20)%Z; [reflexivity|].
  destruct (duration <=? 25)%Z; reflexivity.
Qed.

Lemma interpolateRate_exact_entry (duration : Z) (rates : gmap Z Q) (v : Q) :
  (duration <> 0)%Z -> rates !! duration = Some v -> ~ v == 0 ->
  interpolateRate duration (Some rates) = Num v.
Proof.
  intros Hd Hv Hnz. unfold interpolateRate.
  replace (duration =? 0)%Z with false by (symmetry; apply Z.eqb_neq; lia).
  rewrite Hv.
  replace (falsy v) with false by (symmetry; apply falsy_false; exact Hnz).
  reflexivity.
Qed.

(** C8 (as the code behaves).  For a positive duration: when the anchors
    that the duration needs are in the table, [interpolateRate] returns a
    number; when the duration has no entry of its own and one of the anchors
    it needs is missing, the result is not a number ([undefined] from a
    missing end anchor, [NaN] from the interpolation), there is no fallback
    to another anchor. *)
Theorem interpolateRate_needs_its_anchors (duration : Z) (rates : gmap Z Q) :
  (0 < duration)%Z ->
  (Forall (fun k => is_Some (rates !! k)) (neededAnchors duration) ->
   is_Num (interpolateRate duration (Some rates)))
  /\ (rates !! duration = None ->
      Exists (fun k => rates !! k = None) (neededAnchors duration) ->
      ~ is_Num (interpolateRate duration (Some rates))).
Proof.
  intros Hpos. unfold interpolateRate, neededAnchors.
  replace (duration =? 0)%Z with false by (symmetry; apply Z.eqb_neq; lia).
  split.
  - intros Hall.
    assert (Hfall :
      is_Num (if (duration <? 15)%Z then js_get rates 15%Z
              else if (duration <=? 20)%Z then
                js_add (js_get rates 15%Z)
                  (js_div (js_mul (js_sub (js_get rates 20%Z) (js_get rates 15%Z))
                                  (Num (inject_Z (duration - 15))))
                          (Num (inject_Z (20 - 15))))
              else if (duration <=? 25)%Z then
                js_add (js_get rates 20%Z)
                  (js_div (js_mul (js_sub (js_get rates 25%Z) (js_get rates 20%Z))
                                  (Num (inject_Z (duration - 20))))
                          (Num (inject_Z (25 - 20))))
              else js_get rates 25%Z)).
    { destruct (duration <? 15)%Z;
        [|destruct (duration <=? 20)%Z; [|destruct (duration <=? 25)%Z]];
        repeat match goal with
               | H : Forall _ (_ :: _) |- _ => inversion H; subst; clear H
               end;
        repeat match goal with
               | H : is_Some (rates !! ?k) |- _ =>
                   let v := fresh "v" in let E := fresh "E" in
                   destruct H as [v E]; unfold js_get; rewrite ?E
               end; exact I. }
    destruct (rates !! duration) as [v|]; [destruct (falsy v)|];
      first [exact Hfall | exact I].
  - intros Hnone Hmiss. rewrite Hnone.
    destruct (duration <? 15)%Z;
      [|destruct (duration <=? 20)%Z; [|destruct (duration <=? 25)%Z]];
      repeat match goal with
             | H : Exists _ (_ :: _) |- _ => inversion H; subst; clear H
             | H : Exists _ [] |- _ => inversion H
             end;
      unfold js_get;
      repeat match goal with
             | H : rates !! _ = None |- _ => rewrite H
             end;
      try (intros []);
      repeat match goal with
             | |- context [rates !! ?k] => destruct (rates !! k)
             end; intros [].
Qed.

Lemma interpolateRate_needs_its_anchors_witness :
  let rates : gmap Z Q := {[ 15%Z := 3.09; 20%Z := 3.17; 25%Z := 3.25 ]} in
  (Forall (fun k => is_Some (rates !! k)) (neededAnchors 17) ->
   is_Num (interpolateRate 17 (Some rates)))
  /\ (rates !! 17%Z = None ->
      Exists (fun k => rates !! k = None) (neededAnchors 17) ->
      ~ is_Num (interpolateRate 17 (Some rates))).
Proof.
  apply (interpolateRate_needs_its_anchors 17); reflexivity.
Defined.

(** C8, counterexample.  With the anchor 15 missing, a duration of 10 years
    gets [undefined], not the rate of the nearest anchor that is present
    (3.17 at 20 years); with the anchor 20 missing, 17 years gets [NaN]. *)
Lemma interpolateRate_missing_anchor_counterexample :
  interpolateRate 10 (Some {[ 20%Z := 3.17; 25%Z := 3.25 ]}) = Undefined
  /\ interpolateRate 17 (Some {[ 15%Z := 3.09; 25%Z := 3.25 ]}) = NaN
  /\ ~ is_Num (interpolateRate 10 (Some {[ 20%Z := 3.17; 25%Z := 3.25 ]})).
Proof.
  split; [|split].
  - vm_compute. reflexivity.
  - vm_compute. reflexivity.
  - vm_compute. intros [].
Qed.

(** ** Gigogne: the bisection *)

Lemma Qhalf_between (low high : Q) :
  low <= high -> low <= (low + high) / 2 /\ (low + high) / 2 <= high.
Proof.
  intros H.
  assert (E : (low + high) / 2 == (low + high) * (1 # 2)) by field.
  rewrite E. split; lra.
Qed.

Lemma Math_floor_bounds (x : Q) :
  0 <= x -> 0 <= Math_floor x /\ Math_floor x <= x.
Proof.
  intros H. unfold Math_floor. split; [|apply Qfloor_le].
  change 0 with (inject_Z 0). rewrite <- Zle_Qle.
  rewrite <- (Qfloor_Z 0). apply Qfloor_resp_le. exact H.
Qed.

Section Bisection.

Variable check : Q -> bool.

(** [optimal] trails [low], and the interval stays inside the initial one. *)
Lemma binarySearch_bounds (i : nat) (low high optimal top : Q) :
  0 <= optimal -> optimal <= low -> low <= high -> high <= top ->
  0 <= binarySearch check i low high optimal
  /\ binarySearch check i low high optimal <= top.
Proof.
  revert low high optimal.
  induction i as [|i IH]; intros low high optimal H0 Hol Hlh Hht;
    cbn [binarySearch].
  - split; lra.
  - destruct (Qhalf_between low high Hlh) as [Hlm Hmh].
    destruct (check ((low + high) / 2)); apply IH; lra.
Qed.

(** What the bisection returns is the initial [optimal] or a point at
    which the test passed. *)
Lemma binarySearch_checked (i : nat) (low high optimal : Q) :
  optimal = 0 \/ check optimal = true ->
  binarySearch check i low high optimal = 0
  \/ check (binarySearch check i low high optimal) = true.
Proof.
  revert low high optimal.
  induction i as [|i IH]; intros low high optimal H; cbn [binarySearch].
  - exact H.
  - destruct (check ((low + high) / 2)) eqn:E; apply IH; auto.
Qed.

End Bisection.





(** ** Gigogne: no negative amortization *)

Lemma inject_Z_pos (n : Z) : (0 < n)%Z -> 0 < inject_Z n.
Proof. intros H. change 0 with (inject_Z 0). rewrite <- Zlt_Qlt. exact H. Qed.

(** The annuity factor of a rate that is not negative is positive, and it
    is at most [1 / r]. *)
Lemma calcAnnuityFactor_bounds (r : Q) (n : Z) :
  0 <= r -> (0 < n)%Z ->
  0 < calcAnnuityFactor r n /\ r * calcAnnuityFactor r n <= 1.
Proof.
  intros Hr Hn. unfold calcAnnuityFactor, Math_pow.
  destruct (Qeq_bool r 0) eqn:E.
  - apply Qeq_bool_iff in E. split; [apply inject_Z_pos, Hn|].
    rewrite E. rewrite Qmult_0_l. discriminate.
  - apply Qeq_bool_false in E.
    assert (Hr' : 0 < r) by lra.
    assert (Hg : 1 < (1 + r) ^ n) by (apply Qpower_1_lt; [lra | exact Hn]).
    rewrite Qpower_opp.
    set (g := (1 + r) ^ n) in *.
    assert (Hi : 0 < / g) by (apply Qinv_lt_0_compat; lra).
    assert (Hgi : g * / g == 1) by (apply Qmult_inv_r; lra).
    assert (Hlt : / g < 1).
    { assert (H : 0 < (g - 1) * / g) by (apply Qmult_lt_0_compat; lra).
      lra. }
    split.
    + apply Qlt_shift_div_l; [exact Hr'|]. lra.
    + assert (Hf : r * ((1 - / g) / r) == 1 - / g) by (field; lra).
      rewrite Hf. lra.
Qed.

Lemma secondaryPayment_linear (p2 r2 : Q) (n2 : Z) :
  secondaryPayment p2 r2 n2 == p2 * secondaryPayment 1 r2 n2.
Proof.
  unfold secondaryPayment. cbv zeta.
  destruct (Qeq_bool (r2 / 12 / 100) 0); unfold Qdiv; ring.
Qed.

Section Gigogne.

Variables (totalLoan r1 : Q) (n1 : Z) (r2 : Q) (n2 : Z).
Hypothesis loan_nonneg : 0 <= totalLoan.
Hypothesis r1_nonneg : 0 <= r1.
Hypothesis n1_pos : (0 < n1)%Z.
Hypothesis n2_pos : (0 < n2)%Z.

Let rm1 : Q := r1 / 12 / 100.
Let unit2 : Q := secondaryPayment 1 r2 n2.
Let A11 : Q := calcAnnuityFactor rm1 (n1 * 12).
Let A12 : Q := calcAnnuityFactor rm1 (n2 * 12).

(** By how much the primary's share of the smoothed payment exceeds the
    bound of [checkConstraints]. *)
Let slack (p2 : Q) : Q :=
  primaryPaymentPhase1 totalLoan r1 n1 r2 n2 p2
  - (primaryInterest totalLoan r1 p2 - 0.01).

Lemma checkConstraints_slack (p2 : Q) :
  checkConstraints totalLoan r1 n1 r2 n2 p2 = true <-> 0 <= slack p2.
Proof using Type.
  unfold checkConstraints, slack. rewrite Qle_bool_iff. split; lra.
Qed.

(** Between [0] and the total loan the slack is an affine function of the
    secondary amount. *)
Lemma slack_affine (p2 : Q) :
  0 <= p2 -> p2 <= totalLoan ->
  slack p2
  == ((totalLoan - p2) + p2 * unit2 * A12) * / A11 - p2 * unit2
     - ((totalLoan - p2) * rm1 - 0.01).
Proof using n1_pos n2_pos.
  intros H0 H1.
  unfold slack, primaryPaymentPhase1, primaryInterest, calcSmoothMensuality.
  replace (Qltb (totalLoan - p2) 0) with false
    by (symmetry; apply Qltb_false; lra).
  replace (Qltb p2 0) with false by (symmetry; apply Qltb_false; lra).
  replace (n1 =? 0)%Z with false by (symmetry; apply Z.eqb_neq; lia).
  replace (n2 =? 0)%Z with false by (symmetry; apply Z.eqb_neq; lia).
  cbn [orb]. cbv zeta. fold rm1. fold A11. fold A12.
  rewrite (secondaryPayment_linear p2). fold unit2.
  unfold Qdiv. ring.
Qed.

Lemma rm1_nonneg : 0 <= rm1.
Proof using r1_nonneg.
  unfold rm1. rewrite monthly_rate_scale. lra.
Qed.

Lemma slack_at_0 : 0 <= slack 0.
Proof using loan_nonneg r1_nonneg n1_pos n2_pos.
  rewrite slack_affine by lra.
  destruct (calcAnnuityFactor_bounds rm1 (n1 * 12) rm1_nonneg) as [HA Hr];
    [lia|].
  fold A11 in HA, Hr.
  assert (Hinv : rm1 <= / A11).
  { assert (H : rm1 <= 1 / A11) by (apply Qle_shift_div_l; assumption).
    unfold Qdiv in H. rewrite Qmult_1_l in H. exact H. }
  assert (Hprod : 0 <= totalLoan * (/ A11 - rm1))
    by (apply Qmult_le_0_compat; lra).
  lra.
Qed.

(** An affine function that is not negative at [0] and at [t] is not
    negative in between. *)
Lemma slack_between (q t : Q) :
  0 <= q -> q <= t -> t <= totalLoan -> 0 <= slack t -> 0 <= slack q.
Proof using loan_nonneg r1_nonneg n1_pos n2_pos.
  intros Hq Hqt Ht Hst.
  pose proof slack_at_0 as Hs0.
  destruct (Qeq_dec t 0) as [Et|Et].
  - assert (Eq : slack q == slack 0).
    { rewrite !slack_affine by lra.
      assert (Eq0 : q == 0) by lra. rewrite Eq0. reflexivity. }
    rewrite Eq. exact Hs0.
  - assert (Htpos : 0 < t) by lra.
    assert (Hid : slack q * t == slack 0 * (t - q) + slack t * q).
    { rewrite !slack_affine by lra. ring. }
    assert (H1 : 0 <= slack 0 * (t - q)) by (apply Qmult_le_0_compat; lra).
    assert (H2 : 0 <= slack t * q) by (apply Qmult_le_0_compat; lra).
    apply (Qmult_lt_0_le_reg_r _ _ t Htpos).
    rewrite Qmult_0_l. lra.
Qed.

(** The amount returned passes the test of [checkConstraints]. *)
Lemma calcOptimalSecondaryAmount_checked (maxAmount : Q) :
  0 <= maxAmount ->
  0 <= slack (calcOptimalSecondaryAmount totalLoan r1 n1 r2 n2 maxAmount).
Proof using loan_nonneg r1_nonneg n1_pos n2_pos.
  intros Hmax. unfold calcOptimalSecondaryAmount.
  destruct (falsy totalLoan || Qle_bool totalLoan 0); [exact slack_at_0|].
  cbv zeta.
  set (high := Math_min maxAmount totalLoan).
  assert (Hhigh : 0 <= high /\ high <= totalLoan).
  { subst high. qtests; split; lra. }
  destruct (checkConstraints totalLoan r1 n1 r2 n2 high) eqn:E.
  - apply checkConstraints_slack, E.
  - set (check := checkConstraints totalLoan r1 n1 r2 n2) in *.
    destruct (binarySearch_bounds check 20 0 high 0 high) as [Hb0 Hb1];
      try lra.
    destruct (Math_floor_bounds _ Hb0) as [Hf0 Hf1].
    destruct (binarySearch_checked check 20 0 high 0 (or_introl eq_refl))
      as [Hz | Hc].
    + rewrite Hz. exact slack_at_0.
    + apply (slack_between _ (binarySearch check 20 0 high 0));
        [exact Hf0 | exact Hf1 | lra |].
      apply checkConstraints_slack, Hc.
Qed.

End Gigogne.

(** With a negative total loan nothing is lent: the amount is [0], the
    smoothed payment is [0], and the bound of [checkConstraints] holds. *)
Lemma negative_loan_slack (totalLoan r1 : Q) (n1 : Z) (r2 : Q) (n2 : Z)
    (maxAmount : Q) :
  totalLoan < 0 -> 0 <= r1 ->
  primaryInterest totalLoan r1
    (calcOptimalSecondaryAmount totalLoan r1 n1 r2 n2 maxAmount) - 0.01
  <= primaryPaymentPhase1 totalLoan r1 n1 r2 n2
       (calcOptimalSecondaryAmount totalLoan r1 n1 r2 n2 maxAmount).
Proof.
  intros Hneg Hr1. unfold calcOptimalSecondaryAmount.
  replace (Qle_bool totalLoan 0) with true
    by (symmetry; apply Qle_bool_iff; lra).
  rewrite orb_true_r.
  unfold primaryInterest, primaryPaymentPhase1, calcSmoothMensuality.
  replace (Qltb (totalLoan - 0) 0) with true by (symmetry; apply Qltb_true; lra).
  cbn [orb]. cbv zeta.
  rewrite (secondaryPayment_linear 0).
  assert (Hrm : 0 <= r1 / 12 / 100) by (rewrite monthly_rate_scale; lra).
  assert (Hprod : 0 <= (0 - totalLoan) * (r1 / 12 / 100))
    by (apply Qmult_le_0_compat; lra).
  lra.
Qed.

(** C4. With rates that are not negative, positive durations and a user
    maximum that is not negative, the secondary amount [p2] chosen by
    [calcOptimalSecondaryAmount] leaves the primary tranche
    [p1 = totalLoan - p2] without negative amortization: in every month of
    the overlap, the smoothed payment [M] less the secondary payment [m2]
    covers the monthly interest of [p1], up to the tolerance [0.01]. *)
Theorem calcOptimalSecondaryAmount_no_negative_amortization
    (totalLoan r1 : Q) (n1 : Z) (r2 : Q) (n2 : Z) (maxAmount : Q) :
  0 <= r1 -> 0 <= r2 -> (0 < n1)%Z -> (0 < n2)%Z -> 0 <= maxAmount ->
  let p2 := calcOptimalSecondaryAmount totalLoan r1 n1 r2 n2 maxAmount in
  let p1 := totalLoan - p2 in
  let M := calcSmoothMensuality p1 r1 n1 p2 r2 n2 in
  let m2 := secondaryPayment p2 r2 n2 in
  forall month : Z, (1 <= month <= n2 * 12)%Z ->
    p1 * (r1 / 12 / 100) - 0.01 <= M - m2.
Proof.
  intros Hr1 _ Hn1 Hn2 Hmax p2 p1 M m2 month _.
  assert (H : primaryInterest totalLoan r1 p2 - 0.01
              <= primaryPaymentPhase1 totalLoan r1 n1 r2 n2 p2).
  { destruct (Qlt_le_dec totalLoan 0) as [Hneg | Hl].
    - apply negative_loan_slack; assumption.
    - pose proof (calcOptimalSecondaryAmount_checked totalLoan r1 n1 r2 n2
                    Hl Hr1 Hn1 Hn2 maxAmount Hmax) as H.
      cbv beta zeta in H. fold p2 in H. lra. }
  unfold primaryPaymentPhase1, primaryInterest in H. cbv zeta in H.
  fold p1 in H. fold M in H. fold m2 in H. exact H.
Qed.

Lemma calcOptimalSecondaryAmount_no_negative_amortization_witness :
  let p2 := calcOptimalSecondaryAmount 1000 3 2 1 1 500 in
  let p1 := 1000 - p2 in
  let M := calcSmoothMensuality p1 3 2 p2 1 1 in
  let m2 := secondaryPayment p2 1 1 in
  (1 <= 12 <= 1 * 12)%Z
  /\ p1 * (3 / 12 / 100) - 0.01 <= M - m2.
Proof.
  split; [lia|].
  apply (calcOptimalSecondaryAmount_no_negative_amortization 1000 3 2 1 1 500
           ltac:(discriminate) ltac:(discriminate) ltac:(reflexivity)
           ltac:(reflexivity) ltac:(discriminate) 12%Z).
  lia.
Defined.

(** ** Required loan *)

Ltac qtest_hyp :=
  match goal with
  | H : context [Qle_bool ?a ?b] |- _ =>
      let E := fresh "E" in
      destruct (Qle_bool a b) eqn:E;
      [apply Qle_bool_iff in E | apply Qle_bool_false in E]
  end.

Ltac qsplit :=
  repeat (first [qtest | qtest_hyp];
          cbn [negb orb andb] in *; cbv beta iota zeta in * ).

Lemma guard_true (x : Q) : falsy x || Qle_bool x 0 = true -> x <= 0.
Proof.
  intros H. apply orb_true_iff in H. destruct H as [H|H].
  - apply falsy_true in H. lra.
  - apply Qle_bool_iff, H.
Qed.

Lemma guard_false (x : Q) : falsy x || Qle_bool x 0 = false -> 0 < x.
Proof.
  intros H. apply orb_false_iff in H. destruct H as [_ H].
  apply Qle_bool_false, H.
Qed.

Lemma calcEmoluments_mono (p q : Q) :
  p <= q -> calcEmoluments p <= calcEmoluments q.
Proof.
  intros H. unfold calcEmoluments.
  unfold FormulaConstants.emolumentThresholds.tier3,
    FormulaConstants.emolumentThresholds.tier2,
    FormulaConstants.emolumentThresholds.tier1,
    FormulaConstants.emolumentRates.bracket1,
    FormulaConstants.emolumentRates.bracket2,
    FormulaConstants.emolumentRates.bracket3,
    FormulaConstants.emolumentRates.bracket4,
    FormulaConstants.emolumentTVA, Qltb.
  qsplit; lra.
Qed.

Lemma calcNotaryFees_mono (p q : Q) (propertyType : string) :
  0 < p -> p <= q ->
  calcNotaryFees p propertyType <= calcNotaryFees q propertyType.
Proof.
  intros Hp Hpq. unfold calcNotaryFees.
  rewrite (guard_pass p Hp), (guard_pass q) by lra. cbv zeta.
  pose proof (calcEmoluments_mono p q Hpq) as He.
  pose proof (Math_max_mono FormulaConstants.contribution.minimum
                (p * FormulaConstants.contribution.rate)
                (q * FormulaConstants.contribution.rate)) as Hc.
  unfold FormulaConstants.contribution.rate, FormulaConstants.propertyTax.new,
    FormulaConstants.propertyTax.old in *.
  assert (Hc' := Hc ltac:(lra)).
  destruct (String.eqb propertyType "new"); lra.
Qed.

Lemma calcCautionCreditLogement_mono (x y : Q) :
  x <= y -> calcCautionCreditLogement x <= calcCautionCreditLogement y.
Proof.
  intros H. unfold calcCautionCreditLogement.
  unfold FormulaConstants.caution.threshold,
    FormulaConstants.caution.commissionRateLow,
    FormulaConstants.caution.commissionFixed,
    FormulaConstants.caution.commissionRateHigh,
    FormulaConstants.caution.fmgRate, FormulaConstants.caution.minimum,
    falsy, Math_max.
  qsplit; lra.
Qed.

Section RequiredLoanMonotone.

Variables (capital fraisDossier : Q).
Variables (price1 notary1 price2 notary2 : Q).
Hypothesis base_le : price1 + notary1 <= price2 + notary2.

(** Two runs of the loop that start in order and enter the body the same
    number of times end in order. *)
Lemma requiredLoanLoop_mono (fuel : nat) :
  forall (iterations : nat) (e1 pv1 e2 pv2 : Q),
    e1 <= e2 ->
    snd (requiredLoanLoop price1 capital fraisDossier notary1 fuel e1 pv1
                          iterations)
    = snd (requiredLoanLoop price2 capital fraisDossier notary2 fuel e2 pv2
                            iterations) ->
    Math_max 0 (fst (requiredLoanLoop price1 capital fraisDossier notary1
                       fuel e1 pv1 iterations))
    <= Math_max 0 (fst (requiredLoanLoop price2 capital fraisDossier notary2
                          fuel e2 pv2 iterations)).
Proof using base_le.
  induction fuel as [|fuel IH]; intros iterations e1 pv1 e2 pv2 Hle Hcount;
    cbn [requiredLoanLoop] in *.
  - cbn [fst]. apply Math_max_mono, Hle.
  - pose proof (calcCautionCreditLogement_mono e1 e2 Hle) as Hcau.
    destruct (Qltb _ (Math_abs (e1 - pv1)) && _) eqn:C1;
      destruct (Qltb _ (Math_abs (e2 - pv2)) && _) eqn:C2;
      cbv zeta in *.
    + set (new1 := price1
                   + (notary1 + fraisDossier + calcCautionCreditLogement e1)
                   - capital) in *.
      set (new2 := price2
                   + (notary2 + fraisDossier + calcCautionCreditLogement e2)
                   - capital) in *.
      assert (Hnew : new1 <= new2) by (subst new1 new2; lra).
      destruct (Qltb new1 0) eqn:B1; destruct (Qltb new2 0) eqn:B2.
      * cbn [fst]. apply Qle_refl.
      * destruct (requiredLoanLoop price2 _ _ _ fuel new2 e2 (S iterations))
          as [f2 k2].
        cbn [fst]. change (Math_max 0 0) with 0. apply Math_max_spec.
      * apply Qltb_false in B1. apply Qltb_true in B2. lra.
      * specialize (IH (S iterations) new1 e1 new2 e2 Hnew).
        destruct (requiredLoanLoop price1 _ _ _ fuel new1 e1 (S iterations))
          as [f1 k1].
        destruct (requiredLoanLoop price2 _ _ _ fuel new2 e2 (S iterations))
          as [f2 k2].
        cbn [fst snd] in *. apply IH. congruence.
    + exfalso.
      destruct (Qltb _ 0); [discriminate|].
      destruct (requiredLoanLoop price1 _ _ _ fuel _ e1 (S iterations)).
      discriminate.
    + exfalso.
      destruct (Qltb _ 0); [discriminate|].
      destruct (requiredLoanLoop price2 _ _ _ fuel _ e2 (S iterations)).
      discriminate.
    + cbn [fst]. apply Math_max_mono, Hle.
Qed.

End RequiredLoanMonotone.

(** The loop condition stops by itself at [maxIterations]: more fuel than
    that changes nothing. *)
Lemma requiredLoanLoop_fuel
    (propertyPrice capital fraisDossier notaryFees : Q) (fuel : nat) :
  forall (extra iterations : nat) (estimatedLoan previousLoan : Q),
    (iterations + fuel = FormulaConstants.iteration.maxIterations)%nat ->
    requiredLoanLoop propertyPrice capital fraisDossier notaryFees
      (fuel + extra) estimatedLoan previousLoan iterations
    = requiredLoanLoop propertyPrice capital fraisDossier notaryFees
        fuel estimatedLoan previousLoan iterations.
Proof.
  induction fuel as [|fuel IH]; intros extra iterations e pv Hit.
  - destruct extra as [|extra]; [reflexivity|].
    cbn [Nat.add requiredLoanLoop].
    replace (iterations <? FormulaConstants.iteration.maxIterations)%nat
      with false by (symmetry; apply Nat.ltb_ge; lia).
    rewrite andb_false_r. reflexivity.
  - cbn [Nat.add requiredLoanLoop].
    destruct (_ && _); [|reflexivity]. cbv zeta.
    destruct (Qltb _ 0); [reflexivity|].
    rewrite IH by lia. reflexivity.
Qed.

Lemma calcRequiredLoan_nonneg
    (propertyPrice capital fraisDossier : Q) (propertyType : string) :
  0 <= RequiredLoan.loan
         (calcRequiredLoan propertyPrice capital fraisDossier propertyType).
Proof.
  unfold calcRequiredLoan.
  destruct (falsy propertyPrice || Qle_bool propertyPrice 0).
  - cbn. discriminate.
  - cbv zeta. cbn [RequiredLoan.loan]. apply Math_max_spec.
Qed.

(** C7 (as the code behaves).  With the capital, the dossier fee and the
    property type fixed, the required loan does not decrease with the price
    between two runs whose convergence loop enters its body the same number
    of times. *)
Theorem calcRequiredLoan_monotone_same_passes
    (price1 price2 capital fraisDossier : Q) (propertyType : string) :
  price1 <= price2 ->
  requiredLoanPasses price1 capital fraisDossier propertyType
  = requiredLoanPasses price2 capital fraisDossier propertyType ->
  RequiredLoan.loan (calcRequiredLoan price1 capital fraisDossier propertyType)
  <= RequiredLoan.loan
       (calcRequiredLoan price2 capital fraisDossier propertyType).
Proof.
  intros Hle Hpasses.
  pose proof (calcRequiredLoan_nonneg price2 capital fraisDossier propertyType)
    as Hnn.
  unfold calcRequiredLoan, requiredLoanPasses in *.
  destruct (falsy price1 || Qle_bool price1 0) eqn:G1.
  - exact Hnn.
  - apply guard_false in G1.
    rewrite (guard_pass price2) in * by lra.
    cbv zeta. cbn [RequiredLoan.loan].
    unfold requiredLoanRun in *. cbv zeta in *.
    apply requiredLoanLoop_mono.
    + pose proof (calcNotaryFees_mono price1 price2 propertyType G1 Hle). lra.
    + unfold FormulaConstants.iteration.initialFeesEstimate. lra.
    + exact Hpasses.
Qed.

Lemma calcRequiredLoan_monotone_same_passes_witness :
  RequiredLoan.loan (calcRequiredLoan 200000 50000 1000 "old")
  <= RequiredLoan.loan (calcRequiredLoan 250000 50000 1000 "old").
Proof.
  apply (calcRequiredLoan_monotone_same_passes 200000 250000 50000 1000 "old");
    [discriminate | vm_compute; reflexivity].
Defined.

(** C7, counterexample.  Capital 50000, dossier fee 1000, pre-owned property:
    at a price of 120099 the loop makes a second pass and ends at
    82210.60..., at 120100 the first step is already within the 100 euro
    threshold and the loop ends one pass earlier, at 82209.98...: the higher
    price gets the smaller loan. *)
Lemma calcRequiredLoan_not_monotone_counterexample :
  120099 <= 120100
  /\ requiredLoanPasses 120099 50000 1000 "old" = 2%nat
  /\ requiredLoanPasses 120100 50000 1000 "old" = 1%nat
  /\ RequiredLoan.loan (calcRequiredLoan 120100 50000 1000 "old")
     < RequiredLoan.loan (calcRequiredLoan 120099 50000 1000 "old")
  /\ ~ RequiredLoan.loan (calcRequiredLoan 120099 50000 1000 "old")
       <= RequiredLoan.loan (calcRequiredLoan 120100 50000 1000 "old").
Proof.
  split; [discriminate|].
  split; [vm_compute; reflexivity|].
  split; [vm_compute; reflexivity|].
  split; [vm_compute; reflexivity|].
  vm_compute. intros H. apply H. reflexivity.
Qed.

(** The loop is not entered at all when the initial estimate
    [1.1 * price - capital] lies within the threshold of [0], the initial
    [previousLoan]: with a capital of 11101 and no dossier fee, a price of
    10000 (estimate -101) goes through three passes to a loan of 1862.892,
    a price of 10001 (estimate -99.9) through none, to a loan of [0]. *)
Example calcRequiredLoan_skipped_loop :
  requiredLoanPasses 10000 11101 0 "old" = 3%nat
  /\ RequiredLoan.loan (calcRequiredLoan 10000 11101 0 "old") == 1862.892
  /\ requiredLoanPasses 10001 11101 0 "old" = 0%nat
  /\ RequiredLoan.loan (calcRequiredLoan 10001 11101 0 "old") == 0.
Proof.
  repeat split; vm_compute; reflexivity.
Qed.

(* ================================================================== *)
(** * Further properties of the formulas *)
(* ================================================================== *)

(** ** Totals of revenues and charges *)

Lemma Qsum_cons (x : Q) (l : list Q) : Qsum (x :: l) = x + Qsum l.
Proof. reflexivity. Qed.

Lemma Qsum_nil : Qsum [] = 0.
Proof. reflexivity. Qed.

Lemma addMonthlyAmount_shift (total : Q) (item : Item.t) :
  addMonthlyAmount total item == total + addMonthlyAmount 0 item.
Proof. unfold addMonthlyAmount. cbv zeta. ring. Qed.

Lemma fold_addMonthlyAmount (items : list Item.t) (start : Q) :
  fold_left addMonthlyAmount items start
  == start + Qsum (map (addMonthlyAmount 0) items).
Proof.
  revert start. induction items as [|item items IH]; intros start;
    cbn [fold_left map].
  - unfold Qsum. cbn [fold_right]. ring.
  - rewrite IH, Qsum_cons, addMonthlyAmount_shift. ring.
Qed.

Lemma calcTotalMonthlyIncome_sum (items : list Item.t) :
  calcTotalMonthlyIncome items == Qsum (map (addMonthlyAmount 0) items).
Proof.
  unfold calcTotalMonthlyIncome. destruct items as [|item items].
  - reflexivity.
  - rewrite fold_addMonthlyAmount. ring.
Qed.

Lemma calcTotalMonthlyCharges_sum (items : list Item.t) :
  calcTotalMonthlyCharges items == Qsum (map (addMonthlyAmount 0) items).
Proof. exact (calcTotalMonthlyIncome_sum items). Qed.

Lemma Qsum_app (l1 l2 : list Q) : Qsum (l1 ++ l2) == Qsum l1 + Qsum l2.
Proof.
  induction l1 as [|x l1 IH]; cbn [app].
  - unfold Qsum at 2. cbn [fold_right]. ring.
  - rewrite !Qsum_cons, IH. ring.
Qed.

Lemma Qsum_Permutation (l1 l2 : list Q) :
  Permutation l1 l2 -> Qsum l1 == Qsum l2.
Proof.
  induction 1 as [|x l l' _ IH|x y l|l l' l'' _ IH1 _ IH2].
  - reflexivity.
  - rewrite !Qsum_cons, IH. reflexivity.
  - rewrite !Qsum_cons. ring.
  - rewrite IH1. exact IH2.
Qed.

(** X1. The monthly totals do not depend on the order of the items: two
    lists that are permutations of each other give the same income and the
    same charges. *)
Theorem calcTotalMonthly_order_irrelevant (items1 items2 : list Item.t) :
  Permutation items1 items2 ->
  calcTotalMonthlyIncome items1 == calcTotalMonthlyIncome items2
  /\ calcTotalMonthlyCharges items1 == calcTotalMonthlyCharges items2.
Proof.
  intros Hperm.
  assert (H : Qsum (map (addMonthlyAmount 0) items1)
              == Qsum (map (addMonthlyAmount 0) items2))
    by (apply Qsum_Permutation, Permutation_map, Hperm).
  split.
  - rewrite !calcTotalMonthlyIncome_sum. exact H.
  - rewrite !calcTotalMonthlyCharges_sum. exact H.
Qed.

Lemma calcTotalMonthly_order_irrelevant_witness :
  let salary := Item.mk 1 "Salaire" (Num 2800) "monthly" in
  let bonus := Item.mk 2 "Prime" (Num 6000) "yearly" in
  calcTotalMonthlyIncome [salary; bonus] == calcTotalMonthlyIncome [bonus; salary]
  /\ calcTotalMonthlyCharges [salary; bonus]
     == calcTotalMonthlyCharges [bonus; salary].
Proof.
  apply calcTotalMonthly_order_irrelevant. apply perm_swap.
Defined.

(** X2. The total of a list is the sum of the totals of its parts, a yearly
    amount counts for a twelfth, and an item whose amount is not a number
    counts for nothing. *)
Theorem calcTotalMonthlyIncome_additive (items1 items2 : list Item.t)
    (id : Z) (type frequency : string) (amount : Q) :
  calcTotalMonthlyIncome (items1 ++ items2)
  == calcTotalMonthlyIncome items1 + calcTotalMonthlyIncome items2
  /\ calcTotalMonthlyIncome (Item.mk id type (Num amount) "yearly" :: items1)
     == amount / 12 + calcTotalMonthlyIncome items1
  /\ calcTotalMonthlyIncome (Item.mk id type (Num amount) "monthly" :: items1)
     == amount + calcTotalMonthlyIncome items1
  /\ calcTotalMonthlyIncome (Item.mk id type Undefined frequency :: items1)
     == calcTotalMonthlyIncome items1
  /\ calcTotalMonthlyIncome (Item.mk id type NaN frequency :: items1)
     == calcTotalMonthlyIncome items1.
Proof.
  rewrite !calcTotalMonthlyIncome_sum, map_app, Qsum_app.
  cbn [map]. rewrite !Qsum_cons.
  set (rest := Qsum (map (addMonthlyAmount 0) items1)).
  set (rest2 := Qsum (map (addMonthlyAmount 0) items2)).
  unfold addMonthlyAmount.
  cbn [Item.amount Item.frequency parseFloat_or_0].
  replace (String.eqb "yearly" "yearly") with true by reflexivity.
  replace (String.eqb "monthly" "yearly") with false by reflexivity.
  repeat split; try ring.
  - destruct (String.eqb frequency "yearly"); unfold Qdiv; ring.
  - destruct (String.eqb frequency "yearly"); unfold Qdiv; ring.
Qed.

(** ** Insurance rate *)

(** X3. The insurance rate never decreases with the age; it is [0] for an
    age that is missing ([0]) or negative. *)
Theorem getInsuranceRate_monotone (age1 age2 : Z) :
  (age1 <= age2)%Z ->
  getInsuranceRate age1 <= getInsuranceRate age2.
Proof.
  intros H. unfold getInsuranceRate.
  unfold FormulaConstants.insuranceRates.upTo25,
    FormulaConstants.insuranceRates.upTo40,
    FormulaConstants.insuranceRates.upTo50,
    FormulaConstants.insuranceRates.upTo65,
    FormulaConstants.insuranceRates.over65.
  repeat match goal with
         | |- context [(?a =? ?b)%Z] => destruct (Z.eqb_spec a b)
         | |- context [(?a <? ?b)%Z] => destruct (Z.ltb_spec a b)
         | |- context [(?a <=? ?b)%Z] => destruct (Z.leb_spec a b)
         end;
    cbn [orb]; try lia; discriminate.
Qed.

Lemma getInsuranceRate_monotone_witness :
  getInsuranceRate 30 <= getInsuranceRate 45.
Proof.
  apply (getInsuranceRate_monotone 30 45). lia.
Defined.

(** ** Fees *)

Lemma calcEmoluments_nonneg (price : Q) : 0 <= calcEmoluments price.
Proof.
  destruct (Qlt_le_dec price 0) as [Hneg | Hpos].
  - assert (H := calcEmoluments_mono price 0 ltac:(lra)).
    unfold calcEmoluments at 1.
    unfold FormulaConstants.emolumentThresholds.tier3,
      FormulaConstants.emolumentThresholds.tier2,
      FormulaConstants.emolumentThresholds.tier1, Qltb.
    unfold FormulaConstants.emolumentTVA.
    qsplit; lra.
  - assert (H := calcEmoluments_mono 0 price Hpos).
    assert (E : calcEmoluments 0 == 0) by reflexivity.
    lra.
Qed.

Lemma calcNotaryFees_lower_bound (price : Q) (propertyType : string) :
  0 < price -> 1015 <= calcNotaryFees price propertyType.
Proof.
  intros Hp. unfold calcNotaryFees. rewrite (guard_pass price Hp). cbv zeta.
  pose proof (calcEmoluments_nonneg price) as He.
  pose proof (Math_max_spec FormulaConstants.contribution.minimum
                (price * FormulaConstants.contribution.rate)) as (Hc & _ & _).
  unfold FormulaConstants.contribution.minimum, FormulaConstants.debours,
    FormulaConstants.propertyTax.new, FormulaConstants.propertyTax.old in *.
  destruct (String.eqb propertyType "new"); lra.
Qed.

Lemma calcNotaryFees_nonpositive (price : Q) (propertyType : string) :
  price <= 0 -> calcNotaryFees price propertyType = 0.
Proof.
  intros Hp. unfold calcNotaryFees.
  replace (Qle_bool price 0) with true by (symmetry; apply Qle_bool_iff, Hp).
  rewrite orb_true_r. reflexivity.
Qed.

(** X4. With the property type fixed, the notary fees never decrease with
    the price (they are [0] up to a price of [0]). *)
Theorem calcNotaryFees_monotone (price1 price2 : Q) (propertyType : string) :
  price1 <= price2 ->
  calcNotaryFees price1 propertyType <= calcNotaryFees price2 propertyType.
Proof.
  intros Hle.
  destruct (Qlt_le_dec 0 price1) as [Hpos | Hneg].
  - apply calcNotaryFees_mono; assumption.
  - rewrite (calcNotaryFees_nonpositive price1) by exact Hneg.
    destruct (Qlt_le_dec 0 price2) as [Hpos2 | Hneg2].
    + pose proof (calcNotaryFees_lower_bound price2 propertyType Hpos2). lra.
    + rewrite (calcNotaryFees_nonpositive price2) by exact Hneg2. lra.
Qed.

Lemma calcNotaryFees_monotone_witness :
  calcNotaryFees 200000 "old" <= calcNotaryFees 250000 "old".
Proof.
  apply (calcNotaryFees_monotone 200000 250000 "old"). discriminate.
Defined.

(** X5. For a positive price the notary fees are at least the disbursements
    plus the minimum contribution (1015), and a new property never pays
    more than a pre-owned one at the same price. *)
Theorem calcNotaryFees_new_below_old (price : Q) (other : string) :
  0 < price ->
  1015 <= calcNotaryFees price "new"
  /\ calcNotaryFees price "new" <= calcNotaryFees price other.
Proof.
  intros Hp. split; [apply calcNotaryFees_lower_bound, Hp|].
  unfold calcNotaryFees. rewrite (guard_pass price Hp). cbv zeta.
  replace (String.eqb "new" "new") with true by reflexivity.
  unfold FormulaConstants.propertyTax.new, FormulaConstants.propertyTax.old.
  destruct (String.eqb other "new"); lra.
Qed.

Lemma calcNotaryFees_new_below_old_witness :
  1015 <= calcNotaryFees 250000 "new"
  /\ calcNotaryFees 250000 "new" <= calcNotaryFees 250000 "old".
Proof.
  apply (calcNotaryFees_new_below_old 250000 "old"). reflexivity.
Defined.

(** X6. For positive loans the guarantee fee is at least its minimum of
    1000, never decreases with the loan, and grows by at most 1.7 % of the
    increase of the loan (the two commission formulas meet at 500000). *)
Theorem calcCautionCreditLogement_slope (loan1 loan2 : Q) :
  0 < loan1 -> loan1 <= loan2 ->
  1000 <= calcCautionCreditLogement loan1
  /\ calcCautionCreditLogement loan1 <= calcCautionCreditLogement loan2
  /\ calcCautionCreditLogement loan2 - calcCautionCreditLogement loan1
     <= 0.017 * (loan2 - loan1).
Proof.
  intros Hpos Hle.
  split; [|split; [apply calcCautionCreditLogement_mono, Hle|]];
    unfold calcCautionCreditLogement;
    unfold FormulaConstants.caution.threshold,
      FormulaConstants.caution.commissionRateLow,
      FormulaConstants.caution.commissionFixed,
      FormulaConstants.caution.commissionRateHigh,
      FormulaConstants.caution.fmgRate, FormulaConstants.caution.minimum,
      falsy, Math_max;
    qsplit; lra.
Qed.

Lemma calcCautionCreditLogement_slope_witness :
  1000 <= calcCautionCreditLogement 400000
  /\ calcCautionCreditLogement 400000 <= calcCautionCreditLogement 600000
  /\ calcCautionCreditLogement 600000 - calcCautionCreditLogement 400000
     <= 0.017 * (600000 - 400000).
Proof.
  apply (calcCautionCreditLogement_slope 400000 600000);
    [reflexivity | discriminate].
Defined.

(** ** Annuities, continued *)

(** X7. The converse round trip: for a payment, an annual rate and a
    duration that are all positive, the payment of the maximum loan is the
    payment one started from. *)
Theorem calcMonthlyPayment_calcMaxLoan_roundtrip (M r : Q) (n : Z) :
  0 < M -> 0 < r -> (0 < n)%Z ->
  0 < calcMaxLoan M r n
  /\ calcMonthlyPayment (calcMaxLoan M r n) r n == M.
Proof.
  intros HM Hr Hn.
  pose proof (calcMaxLoan_annuity r n Hr Hn M HM) as Hloan.
  pose proof (monthlyRate_pos r Hr) as Hm.
  pose proof (growth_gt_1 r n Hr Hn) as Hg.
  cbv zeta in Hloan, Hm, Hg.
  set (m := r / 12 / 100) in *.
  set (g := Math_pow (1 + m) (n * 12)) in *.
  assert (Hi : 0 < / g) by (apply Qinv_lt_0_compat; lra).
  assert (Hgi : g * / g == 1) by (apply Qmult_inv_r; lra).
  assert (Hlt : / g < 1).
  { assert (H : 0 < (g - 1) * / g) by (apply Qmult_lt_0_compat; lra). lra. }
  assert (Hpos : 0 < calcMaxLoan M r n).
  { rewrite Hloan. apply Qlt_shift_div_l; [exact Hm|].
    rewrite Qmult_0_l. apply Qmult_lt_0_compat; lra. }
  split; [exact Hpos|].
  rewrite (calcMonthlyPayment_annuity r n Hr Hn _ Hpos).
  fold m. fold g. rewrite Hloan. field. repeat split; lra.
Qed.

Lemma calcMonthlyPayment_calcMaxLoan_roundtrip_witness :
  0 < calcMaxLoan 100 3 1
  /\ calcMonthlyPayment (calcMaxLoan 100 3 1) 3 1 == 100.
Proof.
  apply (calcMonthlyPayment_calcMaxLoan_roundtrip 100 3 1); reflexivity.
Defined.

Lemma Qpower_succ_nat (a : Q) (k : nat) :
  ~ a == 0 -> a ^ Z.of_nat (S k) == a * a ^ Z.of_nat k.
Proof.
  intros Ha. rewrite Nat2Z.inj_succ. unfold Z.succ.
  rewrite Qpower_plus by exact Ha. rewrite Qpower_1_r. ring.
Qed.

(** Compound growth over [k] periods outruns simple growth:
    [(1 + r)^k * (1 - r * k) <= 1]. *)
Lemma compound_vs_simple (r : Q) (k : nat) :
  0 <= r -> (1 + r) ^ Z.of_nat k * (1 - r * inject_Z (Z.of_nat k)) <= 1.
Proof.
  intros Hr. induction k as [|k IH].
  - change (Z.of_nat 0) with 0%Z. change (inject_Z 0) with 0.
    change ((1 + r) ^ 0) with 1. lra.
  - rewrite Qpower_succ_nat by lra.
    rewrite Nat2Z.inj_succ. unfold Z.succ. rewrite inject_Z_plus.
    assert (Hg : 0 <= (1 + r) ^ Z.of_nat k) by (apply Qpower_0_le; lra).
    assert (Hx : 0 <= inject_Z (Z.of_nat k)).
    { change 0 with (inject_Z 0). rewrite <- Zle_Qle. lia. }
    set (g := (1 + r) ^ Z.of_nat k) in *.
    set (x := inject_Z (Z.of_nat k)) in *.
    change (inject_Z 1) with 1.
    assert (Hsq : 0 <= g * (r * r * (x + 1))).
    { apply Qmult_le_0_compat; [exact Hg|].
      apply Qmult_le_0_compat; [|lra].
      apply Qmult_le_0_compat; exact Hr. }
    assert (E : (1 + r) * g * (1 - r * (x + 1))
                == g * (1 - r * x) - g * (r * r * (x + 1))) by ring.
    rewrite E. lra.
Qed.

(** X8. Credit is never free: for a positive principal, rate and duration,
    the payments of the whole duration add up to at least the principal. *)
Theorem calcMonthlyPayment_repays_principal (P r : Q) (n : Z) :
  0 < P -> 0 < r -> (0 < n)%Z ->
  P <= calcMonthlyPayment P r n * inject_Z (n * 12).
Proof.
  intros HP Hr Hn.
  rewrite (calcMonthlyPayment_annuity r n Hr Hn P HP).
  pose proof (monthlyRate_pos r Hr) as Hm.
  pose proof (growth_gt_1 r n Hr Hn) as Hg.
  cbv zeta in Hm, Hg.
  set (m := r / 12 / 100) in *.
  pose proof (compound_vs_simple m (Z.to_nat (n * 12)) ltac:(lra)) as Hb.
  rewrite Z2Nat.id in Hb by lia.
  unfold Math_pow in *.
  set (g := (1 + m) ^ (n * 12)) in *.
  set (N := inject_Z (n * 12)) in *.
  assert (E : P * (m * g) / (g - 1) * N == (P * (m * g) * N) / (g - 1))
    by (field; lra).
  rewrite E. apply Qle_shift_div_l; [lra|].
  assert (Hmul : P * (g * (1 - m * N)) <= P * 1)
    by (apply Qmult_le_l; [exact HP | exact Hb]).
  assert (E2 : P * (g * (1 - m * N)) == P * g - P * (m * g) * N) by ring.
  rewrite E2 in Hmul.
  assert (E3 : P * (g - 1) == P * g - P * 1) by ring.
  rewrite E3. lra.
Qed.

Lemma calcMonthlyPayment_repays_principal_witness :
  1000 <= calcMonthlyPayment 1000 3 1 * inject_Z (1 * 12).
Proof.
  apply (calcMonthlyPayment_repays_principal 1000 3 1); reflexivity.
Defined.

(** ** The smoothed payment *)

Lemma calcAnnuityFactor_annuity (r : Q) (n : Z) :
  0 < r ->
  calcAnnuityFactor r n == (1 - / Math_pow (1 + r) n) / r.
Proof.
  intros Hr. unfold calcAnnuityFactor.
  replace (Qeq_bool r 0) with false by (symmetry; apply Qeq_bool_false; lra).
  unfold Math_pow. rewrite Qpower_opp. reflexivity.
Qed.

Lemma secondaryPayment_annuity (p2 r2 : Q) (n2 : Z) :
  0 < r2 ->
  secondaryPayment p2 r2 n2
  = p2 * (r2 / 12 / 100 * Math_pow (1 + r2 / 12 / 100) (n2 * 12))
    / (Math_pow (1 + r2 / 12 / 100) (n2 * 12) - 1).
Proof.
  intros Hr. unfold secondaryPayment. cbv zeta.
  replace (Qeq_bool (r2 / 12 / 100) 0) with false; [reflexivity|].
  symmetry. apply Qeq_bool_false. pose proof (monthlyRate_pos r2 Hr) as H.
  cbv zeta in H. lra.
Qed.

Lemma calcSmoothMensuality_formula (p1 r1 : Q) (n1 : Z) (p2 r2 : Q) (n2 : Z) :
  0 <= p1 -> 0 <= p2 -> (0 < n1)%Z -> (0 < n2)%Z ->
  calcSmoothMensuality p1 r1 n1 p2 r2 n2
  = (p1 + secondaryPayment p2 r2 n2
          * calcAnnuityFactor (r1 / 12 / 100) (n2 * 12))
    / calcAnnuityFactor (r1 / 12 / 100) (n1 * 12).
Proof.
  intros H1 H2 Hn1 Hn2. unfold calcSmoothMensuality.
  replace (Qltb p1 0) with false by (symmetry; apply Qltb_false, H1).
  replace (Qltb p2 0) with false by (symmetry; apply Qltb_false, H2).
  replace (n1 =? 0)%Z with false by (symmetry; apply Z.eqb_neq; lia).
  replace (n2 =? 0)%Z with false by (symmetry; apply Z.eqb_neq; lia).
  reflexivity.
Qed.

(** X9. Without a secondary loan the smoothed payment is the ordinary
    annuity payment of the primary loan, whatever rate (not negative) and
    duration (positive) are quoted for the secondary loan. *)
Theorem calcSmoothMensuality_without_secondary
    (p1 r1 : Q) (n1 : Z) (r2 : Q) (n2 : Z) :
  0 < p1 -> 0 < r1 -> (0 < n1)%Z -> 0 <= r2 -> (0 < n2)%Z ->
  calcSmoothMensuality p1 r1 n1 0 r2 n2 == calcMonthlyPayment p1 r1 n1.
Proof.
  intros Hp Hr Hn1 Hr2 Hn2.
  rewrite calcSmoothMensuality_formula by (lra || lia).
  rewrite (calcMonthlyPayment_annuity r1 n1 Hr Hn1 p1 Hp).
  pose proof (monthlyRate_pos r1 Hr) as Hm.
  pose proof (growth_gt_1 r1 n1 Hr Hn1) as Hg.
  cbv zeta in Hm, Hg.
  set (m := r1 / 12 / 100) in *.
  rewrite (secondaryPayment_linear 0).
  rewrite (calcAnnuityFactor_annuity m (n1 * 12) Hm).
  set (g := Math_pow (1 + m) (n1 * 12)) in *.
  set (A12 := calcAnnuityFactor m (n2 * 12)).
  set (u := secondaryPayment 1 r2 n2).
  field. repeat split; lra.
Qed.

Lemma calcSmoothMensuality_without_secondary_witness :
  calcSmoothMensuality 1000 3 2 0 1 1 == calcMonthlyPayment 1000 3 2.
Proof.
  apply (calcSmoothMensuality_without_secondary 1000 3 2 1 1);
    vm_compute; (reflexivity || discriminate).
Defined.

(** X10. Two tranches at the same rate over the same duration cost what
    one loan of their sum costs: the smoothed payment is the annuity payment
    of the total. *)
Theorem calcSmoothMensuality_same_terms (p1 p2 r : Q) (n : Z) :
  0 <= p1 -> 0 <= p2 -> 0 < p1 + p2 -> 0 < r -> (0 < n)%Z ->
  calcSmoothMensuality p1 r n p2 r n == calcMonthlyPayment (p1 + p2) r n.
Proof.
  intros H1 H2 Hsum Hr Hn.
  rewrite calcSmoothMensuality_formula by (lra || lia).
  rewrite (calcMonthlyPayment_annuity r n Hr Hn (p1 + p2) Hsum).
  rewrite (secondaryPayment_annuity p2 r n Hr).
  pose proof (monthlyRate_pos r Hr) as Hm.
  pose proof (growth_gt_1 r n Hr Hn) as Hg.
  cbv zeta in Hm, Hg.
  set (m := r / 12 / 100) in *.
  rewrite (calcAnnuityFactor_annuity m (n * 12) Hm).
  set (g := Math_pow (1 + m) (n * 12)) in *.
  field. repeat split; lra.
Qed.

Lemma calcSmoothMensuality_same_terms_witness :
  calcSmoothMensuality 600 3 1 400 3 1 == calcMonthlyPayment (600 + 400) 3 1.
Proof.
  apply (calcSmoothMensuality_same_terms 600 400 3 1);
    [discriminate | discriminate | reflexivity | reflexivity | reflexivity].
Defined.

(** ** Amortization table, continued *)

Lemma Qceiling_div12 (m : Z) : Qceiling (inject_Z m / 12) = ((m + 11) / 12)%Z.
Proof.
  unfold Qceiling, Qfloor. cbn. Z.div_mod_to_equations. lia.
Qed.

Section AmortizationSums.

Variables (monthlyRate monthlyPayment monthlyInsurance : Q) (numMonths : Z).
Hypothesis rate_pos : 0 < monthlyRate.

Let loop := amortizationLoop monthlyRate monthlyPayment monthlyInsurance
                             numMonths.

(** What is left after [fuel] more payments when nothing is forced. *)
Let leftover (fuel : nat) (remaining : Q) : Q :=
  remaining * (1 + monthlyRate) ^ Z.of_nat fuel
  - monthlyPayment * ((1 + monthlyRate) ^ Z.of_nat fuel - 1) / monthlyRate.

Lemma leftover_step (fuel : nat) (remaining : Q) :
  leftover fuel (remaining - (monthlyPayment - remaining * monthlyRate))
  == leftover (S fuel) remaining.
Proof using rate_pos.
  unfold leftover. rewrite Qpower_succ_nat by lra.
  set (g := (1 + monthlyRate) ^ Z.of_nat fuel).
  field. lra.
Qed.

(** The principal parts of the rows still to come add up to the capital
    still due less what would be left at the end. *)
Lemma amortizationLoop_principal_sum (fuel : nat) :
  forall (month : Z) (remaining paid : Q),
    (month + Z.of_nat fuel = numMonths + 1)%Z ->
    Qsum (map AmortizationRow.principalPart (loop fuel month remaining paid))
    == remaining - leftover fuel remaining.
Proof using rate_pos.
  induction fuel as [|fuel IH]; intros month remaining paid Hm.
  - unfold loop, leftover. cbn [amortizationLoop map].
    change (Z.of_nat 0) with 0%Z.
    change ((1 + monthlyRate) ^ 0) with 1.
    unfold Qsum. cbn [fold_right]. field. lra.
  - unfold loop in *. cbn [amortizationLoop].
    replace (month <=? numMonths)%Z with true
      by (symmetry; apply Z.leb_le; lia).
    cbn [map AmortizationRow.principalPart]. rewrite Qsum_cons.
    rewrite IH by lia.
    destruct (month =? numMonths)%Z eqn:E.
    + apply Z.eqb_eq in E. assert (fuel = O) by lia. subst fuel.
      unfold leftover. change (Z.of_nat 0) with 0%Z. change (Z.of_nat 1) with 1%Z.
      rewrite Qpower_1_r. change ((1 + monthlyRate) ^ 0) with 1.
      field. lra.
    + cbv iota. pose proof (leftover_step fuel remaining) as Hs.
      set (a := leftover fuel _) in *. set (b := leftover (S fuel) _) in *.
      clearbody a b. lra.
Qed.

(** Payment by payment, interest and principal add up to the payments. *)
Lemma amortizationLoop_parts_sum (fuel : nat) :
  forall (month : Z) (remaining paid : Q),
    (month + Z.of_nat fuel = numMonths + 1)%Z ->
    Qsum (map AmortizationRow.interestPart (loop fuel month remaining paid))
    + Qsum (map AmortizationRow.principalPart (loop fuel month remaining paid))
    == monthlyPayment * inject_Z (Z.of_nat fuel).
Proof using Type.
  induction fuel as [|fuel IH]; intros month remaining paid Hm.
  - unfold loop. cbn [amortizationLoop map]. unfold Qsum. cbn [fold_right].
    change (inject_Z (Z.of_nat 0)) with 0. ring.
  - unfold loop in *. cbn [amortizationLoop].
    replace (month <=? numMonths)%Z with true
      by (symmetry; apply Z.leb_le; lia).
    cbn [map AmortizationRow.principalPart AmortizationRow.interestPart].
    rewrite !Qsum_cons.
    rewrite Nat2Z.inj_succ. unfold Z.succ. rewrite inject_Z_plus.
    change (inject_Z 1) with 1.
    match goal with
    | |- context [amortizationLoop ?a ?b ?c ?d fuel ?m ?r ?p] =>
        specialize (IH m r p ltac:(lia));
        set (rest := amortizationLoop a b c d fuel m r p) in *
    end.
    lra.
Qed.

(** The book-keeping columns: months count up from [month], the total paid
    is the number of the month times payment plus insurance. *)
Lemma amortizationLoop_columns (fuel : nat) :
  forall (month : Z) (remaining paid : Q),
    (month + Z.of_nat fuel = numMonths + 1)%Z ->
    paid == inject_Z (month - 1) * (monthlyPayment + monthlyInsurance) ->
    map AmortizationRow.month (loop fuel month remaining paid)
    = seqZ month (Z.of_nat fuel)
    /\ Forall (fun row =>
                 AmortizationRow.payment row = monthlyPayment
                 /\ AmortizationRow.insurance row = monthlyInsurance
                 /\ AmortizationRow.year row
                    = ((AmortizationRow.month row + 11) / 12)%Z
                 /\ AmortizationRow.totalPaid row
                    == inject_Z (AmortizationRow.month row)
                       * (monthlyPayment + monthlyInsurance))
              (loop fuel month remaining paid).
Proof using Type.
  induction fuel as [|fuel IH]; intros month remaining paid Hm Hpaid.
  - split; [reflexivity | constructor].
  - unfold loop in *. cbn [amortizationLoop].
    replace (month <=? numMonths)%Z with true
      by (symmetry; apply Z.leb_le; lia).
    assert (Hnext : paid + (monthlyPayment + monthlyInsurance)
                    == inject_Z (month + 1 - 1)
                       * (monthlyPayment + monthlyInsurance)).
    { rewrite Hpaid. replace (month + 1 - 1)%Z with (month - 1 + 1)%Z by lia.
      rewrite inject_Z_plus. change (inject_Z 1) with 1. ring. }
    match goal with
    | |- context [amortizationLoop ?a ?b ?c ?d fuel ?m ?r ?p] =>
        destruct (IH m r p ltac:(lia) Hnext) as [IHm IHr]
    end.
    split.
    + cbn [map AmortizationRow.month]. rewrite IHm.
      rewrite (seqZ_cons month (Z.of_nat (S fuel))) by lia.
      f_equal. f_equal; lia.
    + constructor; [|exact IHr].
      cbn [AmortizationRow.payment AmortizationRow.insurance
           AmortizationRow.year AmortizationRow.month
           AmortizationRow.totalPaid].
      repeat split; [apply Qceiling_div12|].
      rewrite Hnext. replace (month + 1 - 1)%Z with month by lia.
      reflexivity.
Qed.

(** When the payment is the one that leaves nothing at the end, every
    payment covers its interest and repays some capital. *)
Lemma amortizationLoop_parts_sign (fuel : nat) :
  forall (month : Z) (remaining paid : Q),
    0 < monthlyPayment ->
    (month + Z.of_nat fuel = numMonths + 1)%Z ->
    leftover fuel remaining == 0 ->
    Forall (fun row =>
              0 <= AmortizationRow.interestPart row
              /\ 0 < AmortizationRow.principalPart row
              /\ AmortizationRow.principalPart row
                 <= AmortizationRow.payment row)
           (loop fuel month remaining paid).
Proof using rate_pos.
  induction fuel as [|fuel IH]; intros month remaining paid HM Hm Hleft.
  - constructor.
  - unfold loop in *. cbn [amortizationLoop].
    replace (month <=? numMonths)%Z with true
      by (symmetry; apply Z.leb_le; lia).
    assert (Hg : 1 < (1 + monthlyRate) ^ Z.of_nat (S fuel))
      by (apply Qpower_1_lt; [lra | lia]).
    assert (Hi : remaining * monthlyRate * (1 + monthlyRate) ^ Z.of_nat (S fuel)
                 == monthlyPayment * (1 + monthlyRate) ^ Z.of_nat (S fuel)
                    - monthlyPayment).
    { unfold leftover in Hleft.
      set (g := (1 + monthlyRate) ^ Z.of_nat (S fuel)) in *.
      assert (E : remaining * monthlyRate * g
                  == (remaining * g - monthlyPayment * (g - 1) / monthlyRate)
                     * monthlyRate + monthlyPayment * (g - 1))
        by (field; lra).
      rewrite E, Hleft. ring. }
    set (g := (1 + monthlyRate) ^ Z.of_nat (S fuel)) in *.
    set (i := remaining * monthlyRate) in *.
    assert (Hsign : 0 <= i /\ 0 < monthlyPayment - i) by (split; nra).
    constructor.
    + cbn [AmortizationRow.interestPart AmortizationRow.principalPart
           AmortizationRow.payment].
      fold i. repeat split; lra.
    + apply IH; [exact HM | lia |].
      destruct (month =? numMonths)%Z eqn:E.
      * apply Z.eqb_eq in E. assert (fuel = O) by lia. subst fuel.
        unfold leftover. change (Z.of_nat 0) with 0%Z.
        change ((1 + monthlyRate) ^ 0) with 1. field. lra.
      * cbv iota. pose proof (leftover_step fuel remaining) as Hs.
        set (a := leftover fuel _) in *. set (b := leftover (S fuel) _) in *.
        clearbody a b. lra.
Qed.

End AmortizationSums.

(** The annuity payment is the one that leaves nothing after the last
    month. *)
Lemma annuity_leaves_nothing (loan annualRate : Q) (durationYears : Z) :
  0 < loan -> 0 < annualRate -> (0 < durationYears)%Z ->
  loan * (1 + annualRate / 12 / 100)
         ^ Z.of_nat (Z.to_nat (durationYears * 12))
  - calcMonthlyPayment loan annualRate durationYears
    * ((1 + annualRate / 12 / 100)
         ^ Z.of_nat (Z.to_nat (durationYears * 12)) - 1)
    / (annualRate / 12 / 100)
  == 0.
Proof.
  intros Hl Hr Hn.
  rewrite (calcMonthlyPayment_annuity annualRate durationYears Hr Hn loan Hl).
  pose proof (monthlyRate_pos annualRate Hr) as Hm.
  pose proof (growth_gt_1 annualRate durationYears Hr Hn) as Hg.
  cbv zeta in Hm, Hg. unfold Math_pow in *.
  rewrite Z2Nat.id by lia.
  set (m := annualRate / 12 / 100) in *.
  set (g := (1 + m) ^ (durationYears * 12)) in *.
  field. split; lra.
Qed.

Lemma generateAmortizationTable_unfold
    (loan annualRate : Q) (durationYears : Z) (insuranceRate : Q) :
  0 < loan -> 0 < annualRate -> (0 < durationYears)%Z ->
  generateAmortizationTable loan annualRate durationYears insuranceRate
  = amortizationLoop (annualRate / 12 / 100)
      (calcMonthlyPayment loan annualRate durationYears)
      (calcMonthlyInsurance loan insuranceRate) (durationYears * 12)
      (Z.to_nat (durationYears * 12)) 1 loan 0.
Proof.
  intros Hl Hr Hn. unfold generateAmortizationTable.
  rewrite (guard_pass loan Hl).
  replace (falsy annualRate) with false by (symmetry; apply falsy_false; lra).
  replace (durationYears =? 0)%Z with false by (symmetry; apply Z.eqb_neq; lia).
  reflexivity.
Qed.

Lemma amortization_sums
    (loan annualRate : Q) (durationYears : Z) (insuranceRate : Q) :
  0 < loan -> 0 < annualRate -> (0 < durationYears)%Z ->
  Qsum (map AmortizationRow.principalPart
          (generateAmortizationTable loan annualRate durationYears
                                     insuranceRate))
  == loan
  /\ Qsum (map AmortizationRow.interestPart
             (generateAmortizationTable loan annualRate durationYears
                                        insuranceRate))
     == calcMonthlyPayment loan annualRate durationYears
        * inject_Z (durationYears * 12) - loan.
Proof.
  intros Hl Hr Hn.
  rewrite generateAmortizationTable_unfold by assumption.
  pose proof (monthlyRate_pos annualRate Hr) as Hm. cbv zeta in Hm.
  assert (Hp :
    Qsum (map AmortizationRow.principalPart
            (amortizationLoop (annualRate / 12 / 100)
               (calcMonthlyPayment loan annualRate durationYears)
               (calcMonthlyInsurance loan insuranceRate) (durationYears * 12)
               (Z.to_nat (durationYears * 12)) 1 loan 0))
    == loan).
  { rewrite amortizationLoop_principal_sum by (assumption || lia).
    rewrite annuity_leaves_nothing by assumption. ring. }
  split; [exact Hp|].
  pose proof (amortizationLoop_parts_sum (annualRate / 12 / 100)
                (calcMonthlyPayment loan annualRate durationYears)
                (calcMonthlyInsurance loan insuranceRate) (durationYears * 12)
                (Z.to_nat (durationYears * 12)) 1 loan 0 ltac:(lia)) as Hs.
  rewrite Z2Nat.id in Hs by lia. rewrite Hp in Hs. lra.
Qed.

Lemma generateAmortizationTable_length
    (loan annualRate : Q) (durationYears : Z) (insuranceRate : Q) :
  0 < loan -> 0 < annualRate -> (0 < durationYears)%Z ->
  Z.of_nat (length (generateAmortizationTable loan annualRate durationYears
                                              insuranceRate))
  = (durationYears * 12)%Z.
Proof.
  intros Hl Hr Hn.
  rewrite generateAmortizationTable_unfold by assumption.
  rewrite amortizationLoop_length; lia.
Qed.

(** X11. The schedule repays exactly what was lent: the principal parts of
    all rows add up to the loan, and the interest parts add up to the
    payments less the loan; forcing the last remaining capital to [0] only
    absorbs rounding. *)
Theorem generateAmortizationTable_repays_loan
    (loan annualRate : Q) (durationYears : Z) (insuranceRate : Q) :
  0 < loan -> 0 < annualRate -> (0 < durationYears)%Z ->
  let table :=
    generateAmortizationTable loan annualRate durationYears insuranceRate in
  Qsum (map AmortizationRow.principalPart table) == loan
  /\ Qsum (map AmortizationRow.interestPart table)
     == calcMonthlyPayment loan annualRate durationYears
        * inject_Z (durationYears * 12) - loan.
Proof.
  intros Hl Hr Hn table. subst table.
  apply amortization_sums; assumption.
Qed.

Lemma generateAmortizationTable_repays_loan_witness :
  let table := generateAmortizationTable 1200 3 1 0.0012 in
  Qsum (map AmortizationRow.principalPart table) == 1200
  /\ Qsum (map AmortizationRow.interestPart table)
     == calcMonthlyPayment 1200 3 1 * inject_Z (1 * 12) - 1200.
Proof.
  apply (generateAmortizationTable_repays_loan 1200 3 1 0.0012); reflexivity.
Defined.

(** X12. Book-keeping of the table: the months are 1, 2, ... in order, the
    year of a row is its month divided by 12 and rounded up, every row
    carries the annuity payment and the insurance computed on the initial
    loan, and the total paid of a row is its month times payment plus
    insurance (so the last row holds the total cost of the loan). *)
Theorem generateAmortizationTable_columns
    (loan annualRate : Q) (durationYears : Z) (insuranceRate : Q) :
  0 < loan -> 0 < annualRate -> (0 < durationYears)%Z ->
  let table :=
    generateAmortizationTable loan annualRate durationYears insuranceRate in
  let payment := calcMonthlyPayment loan annualRate durationYears in
  let insurance := calcMonthlyInsurance loan insuranceRate in
  map AmortizationRow.month table = seqZ 1 (durationYears * 12)
  /\ Forall (fun row =>
               AmortizationRow.payment row = payment
               /\ AmortizationRow.insurance row = insurance
               /\ AmortizationRow.year row
                  = ((AmortizationRow.month row + 11) / 12)%Z
               /\ AmortizationRow.totalPaid row
                  == inject_Z (AmortizationRow.month row)
                     * (payment + insurance))
            table.
Proof.
  intros Hl Hr Hn table payment insurance. subst table.
  rewrite generateAmortizationTable_unfold by assumption.
  pose proof (amortizationLoop_columns (annualRate / 12 / 100) payment
                insurance (durationYears * 12)
                (Z.to_nat (durationYears * 12)) 1 loan 0 ltac:(lia)) as H.
  rewrite Z2Nat.id in H by lia.
  apply H. change (inject_Z (1 - 1)) with 0. ring.
Qed.

Lemma generateAmortizationTable_columns_witness :
  let table := generateAmortizationTable 1200 3 1 0.0012 in
  let payment := calcMonthlyPayment 1200 3 1 in
  let insurance := calcMonthlyInsurance 1200 0.0012 in
  map AmortizationRow.month table = seqZ 1 (1 * 12)
  /\ Forall (fun row =>
               AmortizationRow.payment row = payment
               /\ AmortizationRow.insurance row = insurance
               /\ AmortizationRow.year row
                  = ((AmortizationRow.month row + 11) / 12)%Z
               /\ AmortizationRow.totalPaid row
                  == inject_Z (AmortizationRow.month row)
                     * (payment + insurance))
            table.
Proof.
  apply (generateAmortizationTable_columns 1200 3 1 0.0012); reflexivity.
Defined.

(** X13. No negative amortization in the standard schedule: in every row
    the interest part is not negative and the principal part is positive and
    at most the payment. *)
Theorem generateAmortizationTable_parts_sign
    (loan annualRate : Q) (durationYears : Z) (insuranceRate : Q) :
  0 < loan -> 0 < annualRate -> (0 < durationYears)%Z ->
  Forall (fun row =>
            0 <= AmortizationRow.interestPart row
            /\ 0 < AmortizationRow.principalPart row
            /\ AmortizationRow.principalPart row
               <= AmortizationRow.payment row)
         (generateAmortizationTable loan annualRate durationYears
                                    insuranceRate).
Proof.
  intros Hl Hr Hn.
  rewrite generateAmortizationTable_unfold by assumption.
  pose proof (monthlyRate_pos annualRate Hr) as Hm. cbv zeta in Hm.
  apply amortizationLoop_parts_sign.
  - exact Hm.
  - apply calcMonthlyPayment_pos; assumption.
  - lia.
  - apply annuity_leaves_nothing; assumption.
Qed.

Lemma generateAmortizationTable_parts_sign_witness :
  Forall (fun row =>
            0 <= AmortizationRow.interestPart row
            /\ 0 < AmortizationRow.principalPart row
            /\ AmortizationRow.principalPart row
               <= AmortizationRow.payment row)
         (generateAmortizationTable 1200 3 1 0.0012).
Proof.
  apply (generateAmortizationTable_parts_sign 1200 3 1 0.0012); reflexivity.
Defined.

(** ** The yearly view *)

Lemma indexedFrom_length {A : Type} (k : nat) (data : list A) :
  length (indexedFrom k data) = length data.
Proof.
  revert k. induction data as [|row data IH]; intros k; cbn; [|rewrite IH];
    reflexivity.
Qed.

Section Aggregate.

Variables wPayment wPrincipal wInterest wInsurance : Q.

Let mix := columnMix wPayment wPrincipal wInterest wInsurance.

Lemma aggregateStep_invariant (k : nat)
    (acc : list AmortizationRow.t * option Z * option AmortizationRow.t)
    (total : Q) (row : AmortizationRow.t) :
  aggregateInvariant mix k acc total ->
  aggregateInvariant mix (S k) (aggregateStep acc (k, row)) (total + mix row).
Proof using Type.
  intros Hinv. unfold aggregateStep. rewrite Qceiling_div12.
  destruct k as [|k]; cbn [aggregateInvariant] in Hinv.
  - destruct Hinv as [-> Htot]. cbv beta iota zeta.
    eexists [], _. split; [reflexivity|]. split; [reflexivity|].
    cbn [map]. rewrite Qsum_nil, Htot. unfold mix, columnMix.
    cbn [AmortizationRow.payment AmortizationRow.principalPart
         AmortizationRow.interestPart AmortizationRow.insurance].
    ring.
  - destruct Hinv as (yearly & current & -> & Hlen & Hsum).
    cbv beta iota zeta.
    set (c := ((Z.of_nat (S k) + 11) / 12)%Z) in *.
    set (year := ((Z.of_nat (S k) + 1 + 11) / 12)%Z).
    assert (Hnext : ((Z.of_nat (S (S k)) + 11) / 12)%Z = year)
      by (subst year; f_equal; lia).
    assert (Hyear : year = c \/ year = (c + 1)%Z).
    { subst year c. Z.div_mod_to_equations. lia. }
    cbn [aggregateInvariant]. rewrite Hnext.
    destruct (Z.eqb_spec year c) as [Heq | Hne]; cbn [negb];
      cbv beta iota zeta.
    + eexists yearly, _. split; [rewrite Heq; reflexivity|].
      split; [lia|].
      rewrite <- Hsum. unfold mix, columnMix.
      cbn [AmortizationRow.payment AmortizationRow.principalPart
           AmortizationRow.interestPart AmortizationRow.insurance].
      ring.
    + eexists (yearly ++ [current]), _. split; [reflexivity|].
      split; [rewrite length_app; cbn [length]; lia|].
      rewrite map_app, Qsum_app. cbn [map]. rewrite Qsum_cons, Qsum_nil.
      rewrite <- Hsum. unfold mix, columnMix.
      cbn [AmortizationRow.payment AmortizationRow.principalPart
           AmortizationRow.interestPart AmortizationRow.insurance].
      ring.
Qed.

Lemma aggregateFold_invariant (data : list AmortizationRow.t) :
  forall (k : nat)
         (acc : list AmortizationRow.t * option Z * option AmortizationRow.t)
         (total : Q),
    aggregateInvariant mix k acc total ->
    aggregateInvariant mix (k + length data)
      (fold_left aggregateStep (indexedFrom k data) acc)
      (total + Qsum (map mix data)).
Proof using Type.
  induction data as [|row data IH]; intros k acc total Hinv.
  - cbn [indexedFrom fold_left length map]. rewrite Nat.add_0_r.
    destruct k as [|k]; cbn [aggregateInvariant] in *.
    + destruct Hinv as [-> Htot]. split; [reflexivity|].
      rewrite Htot, Qsum_nil. ring.
    + destruct Hinv as (yearly & current & -> & Hlen & Hsum).
      exists yearly, current. split; [reflexivity|]. split; [exact Hlen|].
      rewrite Hsum, Qsum_nil. ring.
  - cbn [indexedFrom fold_left length map].
    replace (k + S (length data))%nat with (S k + length data)%nat by lia.
    pose proof (IH (S k) _ _ (aggregateStep_invariant k acc total row Hinv))
      as H.
    rewrite Qsum_cons.
    destruct (S k + length data)%nat as [|j] eqn:Ej; [lia|].
    cbn [aggregateInvariant] in *.
    destruct H as (yearly & current & Hacc & Hlen & Hsum).
    exists yearly, current. split; [exact Hacc|]. split; [exact Hlen|].
    rewrite Hsum. ring.
Qed.

(** The rows returned hold, column by column, what the monthly rows hold,
    and there is one row for every twelve months begun. *)
Lemma aggregateYearly_mix (data : list AmortizationRow.t) :
  Qsum (map mix (aggregateYearly data)) == Qsum (map mix data)
  /\ (Z.of_nat (length (aggregateYearly data))
      = (Z.of_nat (length data) + 11) / 12)%Z.
Proof using Type.
  unfold aggregateYearly.
  pose proof (aggregateFold_invariant data 0 ([], None, None) 0) as H.
  cbn [Nat.add] in H.
  specialize (H ltac:(cbn; split; reflexivity)).
  destruct (length data) as [|n] eqn:El.
  - cbn [aggregateInvariant] in H. destruct H as [-> _].
    destruct data; [|discriminate]. split; reflexivity.
  - cbn [aggregateInvariant] in H.
    destruct H as (yearly & current & -> & Hlen & Hsum).
    split.
    + rewrite map_app, Qsum_app. cbn [map]. rewrite Qsum_cons, Qsum_nil.
      set (a := Qsum (map mix yearly)) in *. set (b := mix current) in *.
      set (c := Qsum (map mix data)) in *. clearbody a b c. lra.
    + rewrite length_app. cbn [length]. lia.
Qed.

End Aggregate.

Lemma columnMix_payment (l : list AmortizationRow.t) :
  Qsum (map (columnMix 1 0 0 0) l) == Qsum (map AmortizationRow.payment l).
Proof.
  induction l as [|row l IH]; [reflexivity|].
  cbn [map]. rewrite !Qsum_cons, IH. unfold columnMix. ring.
Qed.

Lemma columnMix_principalPart (l : list AmortizationRow.t) :
  Qsum (map (columnMix 0 1 0 0) l)
  == Qsum (map AmortizationRow.principalPart l).
Proof.
  induction l as [|row l IH]; [reflexivity|].
  cbn [map]. rewrite !Qsum_cons, IH. unfold columnMix. ring.
Qed.

Lemma columnMix_interestPart (l : list AmortizationRow.t) :
  Qsum (map (columnMix 0 0 1 0) l)
  == Qsum (map AmortizationRow.interestPart l).
Proof.
  induction l as [|row l IH]; [reflexivity|].
  cbn [map]. rewrite !Qsum_cons, IH. unfold columnMix. ring.
Qed.

Lemma columnMix_insurance (l : list AmortizationRow.t) :
  Qsum (map (columnMix 0 0 0 1) l) == Qsum (map AmortizationRow.insurance l).
Proof.
  induction l as [|row l IH]; [reflexivity|].
  cbn [map]. rewrite !Qsum_cons, IH. unfold columnMix. ring.
Qed.

Lemma aggregateYearly_totals (data : list AmortizationRow.t) :
  Qsum (map AmortizationRow.payment (aggregateYearly data))
  == Qsum (map AmortizationRow.payment data)
  /\ Qsum (map AmortizationRow.principalPart (aggregateYearly data))
     == Qsum (map AmortizationRow.principalPart data)
  /\ Qsum (map AmortizationRow.interestPart (aggregateYearly data))
     == Qsum (map AmortizationRow.interestPart data)
  /\ Qsum (map AmortizationRow.insurance (aggregateYearly data))
     == Qsum (map AmortizationRow.insurance data)
  /\ (Z.of_nat (length (aggregateYearly data))
      = (Z.of_nat (length data) + 11) / 12)%Z.
Proof.
  repeat split.
  - rewrite <- !columnMix_payment. apply aggregateYearly_mix.
  - rewrite <- !columnMix_principalPart. apply aggregateYearly_mix.
  - rewrite <- !columnMix_interestPart. apply aggregateYearly_mix.
  - rewrite <- !columnMix_insurance. apply aggregateYearly_mix.
  - apply (aggregateYearly_mix 0 0 0 0).
Qed.

(** X14. The yearly view loses nothing: for any table, the payment,
    principal, interest and insurance columns of [aggregateYearly] add up to
    those of the monthly rows, and there is one yearly row for every twelve
    monthly rows begun (none for an empty table). *)
Theorem aggregateYearly_preserves_totals (data : list AmortizationRow.t) :
  Qsum (map AmortizationRow.payment (aggregateYearly data))
  == Qsum (map AmortizationRow.payment data)
  /\ Qsum (map AmortizationRow.principalPart (aggregateYearly data))
     == Qsum (map AmortizationRow.principalPart data)
  /\ Qsum (map AmortizationRow.interestPart (aggregateYearly data))
     == Qsum (map AmortizationRow.interestPart data)
  /\ Qsum (map AmortizationRow.insurance (aggregateYearly data))
     == Qsum (map AmortizationRow.insurance data)
  /\ (Z.of_nat (length (aggregateYearly data))
      = (Z.of_nat (length data) + 11) / 12)%Z.
Proof. exact (aggregateYearly_totals data). Qed.

(** X15. The yearly view of the amortization table of a loan has one row
    per year of the duration, and its principal column still adds up to the
    loan. *)
Theorem aggregateYearly_of_table
    (loan annualRate : Q) (durationYears : Z) (insuranceRate : Q) :
  0 < loan -> 0 < annualRate -> (0 < durationYears)%Z ->
  let yearly :=
    aggregateYearly
      (generateAmortizationTable loan annualRate durationYears insuranceRate) in
  Z.of_nat (length yearly) = durationYears
  /\ Qsum (map AmortizationRow.principalPart yearly) == loan.
Proof.
  intros Hl Hr Hn yearly. subst yearly.
  destruct (aggregateYearly_totals
              (generateAmortizationTable loan annualRate durationYears
                                         insuranceRate))
    as (_ & Hp & _ & _ & Hlen).
  pose proof (generateAmortizationTable_length loan annualRate durationYears
                insuranceRate Hl Hr Hn) as Hrows.
  destruct (amortization_sums loan annualRate durationYears
              insuranceRate Hl Hr Hn) as (Hsum & _).
  split.
  - rewrite Hlen, Hrows. Z.div_mod_to_equations. lia.
  - rewrite Hp. exact Hsum.
Qed.

Lemma aggregateYearly_of_table_witness :
  let yearly := aggregateYearly (generateAmortizationTable 1200 3 1 0.0012) in
  Z.of_nat (length yearly) = 1%Z
  /\ Qsum (map AmortizationRow.principalPart yearly) == 1200.
Proof.
  apply (aggregateYearly_of_table 1200 3 1 0.0012); reflexivity.
Defined.

(** ** Maximum property price *)

Lemma calcNotaryFees_nonneg (price : Q) (propertyType : string) :
  0 <= calcNotaryFees price propertyType.
Proof.
  destruct (Qlt_le_dec 0 price) as [Hpos | Hneg].
  - pose proof (calcNotaryFees_lower_bound price propertyType Hpos). lra.
  - rewrite calcNotaryFees_nonpositive by exact Hneg. lra.
Qed.

Lemma calcCautionCreditLogement_nonneg (loanAmount : Q) :
  0 <= calcCautionCreditLogement loanAmount.
Proof.
  unfold calcCautionCreditLogement.
  destruct (falsy loanAmount || Qle_bool loanAmount 0); [lra|].
  cbv zeta.
  pose proof (Math_max_spec FormulaConstants.caution.minimum
    ((if Qle_bool loanAmount FormulaConstants.caution.threshold
      then loanAmount * FormulaConstants.caution.commissionRateLow
      else FormulaConstants.caution.commissionFixed
           + (loanAmount - FormulaConstants.caution.threshold)
             * FormulaConstants.caution.commissionRateHigh)
     + loanAmount * FormulaConstants.caution.fmgRate)) as (H & _ & _).
  unfold FormulaConstants.caution.minimum in H at 1. lra.
Qed.

Lemma maxPriceLoop_below (capital maxLoan fraisDossier : Q)
    (propertyType : string) (fuel : nat) :
  0 <= fraisDossier ->
  forall (estimatedPrice previousPrice : Q) (iterations : nat),
    estimatedPrice <= capital + maxLoan ->
    maxPriceLoop capital maxLoan fraisDossier propertyType fuel
                 estimatedPrice previousPrice iterations
    <= capital + maxLoan.
Proof.
  intros Hf. induction fuel as [|fuel IH]; intros est prev it Hle;
    cbn [maxPriceLoop]; [exact Hle|].
  destruct (_ && _); [|exact Hle]. cbv zeta.
  apply IH.
  pose proof (calcNotaryFees_nonneg est propertyType).
  pose proof (calcCautionCreditLogement_nonneg maxLoan).
  lra.
Qed.

(** X16. With a capital, a loan capacity and a dossier fee that are not
    negative, the maximum property price is between [0] and capital plus
    loan capacity: the fees only ever lower it; without capital
    ([capital = 0]) the guard returns a price of [0]. *)
Theorem calcMaxPropertyPrice_bounds
    (capital maxLoan fraisDossier : Q) (propertyType : string) :
  0 <= capital -> 0 <= maxLoan -> 0 <= fraisDossier ->
  0 <= MaxPrice.price
         (calcMaxPropertyPrice capital maxLoan fraisDossier propertyType)
  /\ MaxPrice.price
       (calcMaxPropertyPrice capital maxLoan fraisDossier propertyType)
     <= capital + maxLoan
  /\ MaxPrice.price
       (calcMaxPropertyPrice 0 maxLoan fraisDossier propertyType) = 0.
Proof.
  intros Hc Hl Hf. unfold calcMaxPropertyPrice.
  replace (falsy 0) with true by reflexivity. cbn [orb MaxPrice.price].
  split; [|split; [|reflexivity]].
  - destruct (_ || _ || _ || _); cbn [MaxPrice.price]; [lra|].
    apply Math_max_spec.
  - destruct (_ || _ || _ || _); cbn [MaxPrice.price]; [lra|].
    cbv zeta. cbn [MaxPrice.price].
    pose proof (maxPriceLoop_below capital maxLoan fraisDossier propertyType
                  FormulaConstants.iteration.maxIterations Hf
                  (capital + maxLoan) 0 O ltac:(lra)) as H.
    qtests; lra.
Qed.

Lemma calcMaxPropertyPrice_bounds_witness :
  0 <= MaxPrice.price (calcMaxPropertyPrice 50000 200000 1000 "old")
  /\ MaxPrice.price (calcMaxPropertyPrice 50000 200000 1000 "old")
     <= 50000 + 200000
  /\ MaxPrice.price (calcMaxPropertyPrice 0 200000 1000 "old") = 0.
Proof.
  apply (calcMaxPropertyPrice_bounds 50000 200000 1000 "old"); discriminate.
Defined.

Section PriceSearch.

Variable affordable : Q -> bool.

Lemma priceSearch_bounds (fuel : nat) :
  forall (minPrice maxPrice optimalPrice top : Q) (iterations : nat),
    0 <= optimalPrice -> optimalPrice <= minPrice -> minPrice <= maxPrice ->
    maxPrice <= top ->
    0 <= priceSearch affordable fuel minPrice maxPrice optimalPrice iterations
    /\ priceSearch affordable fuel minPrice maxPrice optimalPrice iterations
       <= top.
Proof using Type.
  induction fuel as [|fuel IH]; intros lo hi opt top it H0 Hol Hlh Hht;
    cbn [priceSearch].
  - split; lra.
  - destruct (_ && _); [|split; lra]. cbv zeta.
    destruct (Qhalf_between lo hi Hlh) as [Hlm Hmh].
    destruct (affordable ((lo + hi) / 2)); apply IH; lra.
Qed.

Lemma priceSearch_checked (fuel : nat) :
  forall (minPrice maxPrice optimalPrice : Q) (iterations : nat),
    optimalPrice = 0 \/ affordable optimalPrice = true ->
    priceSearch affordable fuel minPrice maxPrice optimalPrice iterations = 0
    \/ affordable
         (priceSearch affordable fuel minPrice maxPrice optimalPrice iterations)
       = true.
Proof using Type.
  induction fuel as [|fuel IH]; intros lo hi opt it H; cbn [priceSearch].
  - exact H.
  - destruct (_ && _); [|exact H]. cbv zeta.
    destruct (affordable ((lo + hi) / 2)) eqn:E; apply IH; auto.
Qed.

End PriceSearch.

Lemma checkAffordability_with_loan
    (capital maxMonthlyPayment fraisDossier : Q) (propertyType : string)
    (annualRate : Q) (durationYears : Z) (insuranceRate candidatePrice : Q)
    (loanResult : RequiredLoan.t) :
  Affordability.loanResult
    (checkAffordability capital maxMonthlyPayment fraisDossier propertyType
       annualRate durationYears insuranceRate candidatePrice)
  = Some loanResult ->
  loanResult
  = calcRequiredLoan candidatePrice capital fraisDossier propertyType
  /\ 0 < RequiredLoan.loan loanResult
  /\ (Affordability.affordable
        (checkAffordability capital maxMonthlyPayment fraisDossier propertyType
           annualRate durationYears insuranceRate candidatePrice)
      = true ->
      calcMonthlyPayment (RequiredLoan.loan loanResult) annualRate durationYears
      + calcMonthlyInsurance (RequiredLoan.loan loanResult) insuranceRate
      <= maxMonthlyPayment).
Proof.
  unfold checkAffordability. cbv zeta.
  destruct (Qle_bool _ 0) eqn:E; cbn [Affordability.loanResult
    Affordability.affordable]; [discriminate|].
  intros [= <-]. apply Qle_bool_false in E.
  split; [reflexivity|]. split; [exact E|].
  intros H. apply Qle_bool_iff in H. lra.
Qed.

(** X17. Whenever [optimizeMaxPropertyPriceWithInsurance] returns a positive
    price, that price is affordable: the loan it needs is the positive
    required loan of that price, and its payment plus its insurance fit in
    the monthly budget; the price does not exceed the maximum price computed
    without insurance. *)
Theorem optimizeMaxPropertyPriceWithInsurance_affordable
    (capital maxMonthlyPayment fraisDossier : Q) (propertyType : string)
    (annualRate : Q) (durationYears : Z) (age : Z) :
  let result :=
    optimizeMaxPropertyPriceWithInsurance capital maxMonthlyPayment
      fraisDossier propertyType annualRate durationYears age in
  0 < OptimizedPrice.price result ->
  OptimizedPrice.monthlyPayment result + OptimizedPrice.monthlyInsurance result
  <= maxMonthlyPayment
  /\ 0 < OptimizedPrice.loan result
  /\ OptimizedPrice.loan result
     = RequiredLoan.loan
         (calcRequiredLoan (OptimizedPrice.price result) capital fraisDossier
                           propertyType)
  /\ OptimizedPrice.monthlyPayment result
     = calcMonthlyPayment (OptimizedPrice.loan result) annualRate durationYears
  /\ OptimizedPrice.monthlyInsurance result
     = calcMonthlyInsurance (OptimizedPrice.loan result) (getInsuranceRate age)
  /\ OptimizedPrice.price result
     <= MaxPrice.price
          (calcMaxPropertyPrice capital
             (calcMaxLoan maxMonthlyPayment annualRate durationYears)
             fraisDossier propertyType).
Proof.
  cbv zeta. unfold optimizeMaxPropertyPriceWithInsurance.
  destruct (_ || _ || _ || _);
    [cbn [OptimizedPrice.price OptimizedPrice.zeros]; intros H; lra|].
  cbv zeta.
  set (top := MaxPrice.price
                (calcMaxPropertyPrice capital
                   (calcMaxLoan maxMonthlyPayment annualRate durationYears)
                   fraisDossier propertyType)).
  destruct (Qle_bool top 0) eqn:Etop;
    [cbn [OptimizedPrice.price OptimizedPrice.zeros]; intros H; lra|].
  apply Qle_bool_false in Etop.
  set (check := checkAffordability capital maxMonthlyPayment fraisDossier
                  propertyType annualRate durationYears
                  (getInsuranceRate age)).
  set (aff := fun midPrice : Q => Affordability.affordable (check midPrice)).
  set (optimal := priceSearch aff 30 0 top 0 0).
  destruct (priceSearch_bounds aff 30 0 top 0 top 0) as [Hb0 Hb1]; try lra.
  fold optimal in Hb0, Hb1.
  destruct (priceSearch_checked aff 30 0 top 0 0 (or_introl eq_refl))
    as [Hz | Haff]; fold optimal in Hz || fold optimal in Haff.
  - destruct (Affordability.loanResult (check optimal));
      [|cbn [OptimizedPrice.price OptimizedPrice.zeros]; intros H; lra].
    rewrite Hz. replace (Qltb 0 0) with false by reflexivity.
    cbn [OptimizedPrice.price OptimizedPrice.zeros]. intros H. lra.
  - destruct (Affordability.loanResult (check optimal)) as [loanResult|] eqn:El;
      [|cbn [OptimizedPrice.price OptimizedPrice.zeros]; intros H; lra].
    destruct (Qltb 0 optimal);
      [|cbn [OptimizedPrice.price OptimizedPrice.zeros]; intros H; lra].
    cbn [OptimizedPrice.price OptimizedPrice.loan OptimizedPrice.monthlyPayment
         OptimizedPrice.monthlyInsurance].
    intros _.
    destruct (checkAffordability_with_loan _ _ _ _ _ _ _ _ _ El)
      as (Hlr & Hpos & Hfit).
    split; [apply Hfit, Haff|]. split; [exact Hpos|].
    split; [rewrite Hlr; reflexivity|]. repeat split. exact Hb1.
Qed.

Lemma optimizeMaxPropertyPriceWithInsurance_affordable_witness :
  let result :=
    optimizeMaxPropertyPriceWithInsurance 1 185 0 "old" 3 1 30 in
  0 < OptimizedPrice.price result
  /\ (OptimizedPrice.monthlyPayment result
      + OptimizedPrice.monthlyInsurance result <= 185
      /\ 0 < OptimizedPrice.loan result
      /\ OptimizedPrice.loan result
         = RequiredLoan.loan
             (calcRequiredLoan (OptimizedPrice.price result) 1 0 "old")
      /\ OptimizedPrice.monthlyPayment result
         = calcMonthlyPayment (OptimizedPrice.loan result) 3 1
      /\ OptimizedPrice.monthlyInsurance result
         = calcMonthlyInsurance (OptimizedPrice.loan result)
                                (getInsuranceRate 30)
      /\ OptimizedPrice.price result
         <= MaxPrice.price
              (calcMaxPropertyPrice 1 (calcMaxLoan 185 3 1) 0 "old")).
Proof.
  assert (Hpos : 0 < OptimizedPrice.price
                       (optimizeMaxPropertyPriceWithInsurance
                          1 185 0 "old" 3 1 30))
    by (vm_compute; reflexivity).
  split; [exact Hpos|].
  exact (optimizeMaxPropertyPriceWithInsurance_affordable
           1 185 0 "old" 3 1 30 Hpos).
Defined.

(** ** The gigogne schedule *)

Section GigogneSchedule.

Variables (M m2 rm1 rm2 totalIns : Q) (nm1 nm2 : Z).

Let loop := gigogneLoop M m2 rm1 rm2 totalIns nm1 nm2.

Lemma gigogneLoop_length (fuel : nat) :
  forall (month : Z) (remP1 remP2 paid : Q),
    (month + Z.of_nat fuel = nm1 + 1)%Z ->
    length (loop fuel month remP1 remP2 paid) = fuel.
Proof using Type.
  induction fuel as [|fuel IH]; intros month remP1 remP2 paid Hm;
    [reflexivity|].
  unfold loop in *. cbn [gigogneLoop].
  replace (month <=? nm1)%Z with true by (symmetry; apply Z.leb_le; lia).
  destruct (month <=? nm2)%Z; cbv beta iota zeta; cbn [length]; f_equal;
    apply IH; lia.
Qed.

Lemma gigogneLoop_rows (fuel : nat) :
  forall (month : Z) (remP1 remP2 paid : Q),
    Forall (gigogneRow_ok M) (loop fuel month remP1 remP2 paid).
Proof using Type.
  induction fuel as [|fuel IH]; intros month remP1 remP2 paid;
    [constructor|].
  unfold loop in *. cbn [gigogneLoop].
  destruct (month <=? nm1)%Z; [|constructor].
  destruct (month <=? nm2)%Z; cbv beta iota zeta;
    (constructor; [|apply IH]);
    unfold gigogneRow_ok;
    cbn [GigogneRow.payment GigogneRow.paymentP1 GigogneRow.paymentP2
         GigogneRow.principalP1 GigogneRow.interestP1 GigogneRow.principalP2
         GigogneRow.interestP2 GigogneRow.remainingCapitalP1
         GigogneRow.remainingCapitalP2 GigogneRow.remainingCapital];
    (repeat split; try ring; unfold Qltb; qsplit; lra).
Qed.

(** From the month in which the secondary loan matures, nothing of it
    remains. *)
Lemma gigogneLoop_secondary_repaid (fuel : nat) :
  forall (month : Z) (remP1 remP2 paid : Q),
    ((nm2 < month)%Z -> remP2 == 0) ->
    Forall (fun row =>
              (nm2 <= GigogneRow.month row)%Z ->
              GigogneRow.remainingCapitalP2 row == 0)
           (loop fuel month remP1 remP2 paid).
Proof using Type.
  induction fuel as [|fuel IH]; intros month remP1 remP2 paid Hrem;
    [constructor|].
  unfold loop in *. cbn [gigogneLoop].
  destruct (month <=? nm1)%Z; [|constructor].
  destruct (Z.leb_spec month nm2) as [Hphase | Hphase]; cbv beta iota zeta.
  - destruct (Z.eqb_spec month nm2) as [Heq | Hne].
    + replace (Qltb 0 0) with false by reflexivity.
      constructor; [|apply IH].
      * cbn [GigogneRow.month GigogneRow.remainingCapitalP2]. reflexivity.
      * reflexivity.
    + constructor; [|apply IH].
      * cbn [GigogneRow.month]. lia.
      * lia.
  - specialize (Hrem Hphase).
    assert (Hzero : (if Qltb (if (month =? nm2)%Z then 0 else remP2 - 0) 0
                     then 0 else if (month =? nm2)%Z then 0 else remP2 - 0)
                    == 0).
    { destruct (month =? nm2)%Z; unfold Qltb; qsplit; lra. }
    constructor; [|apply IH].
    + cbn [GigogneRow.remainingCapitalP2]. intros _. exact Hzero.
    + intros _. exact Hzero.
Qed.

Lemma gigogneLoop_last (fuel : nat) :
  forall (month : Z) (remP1 remP2 paid : Q),
    (month + Z.of_nat (S fuel) = nm1 + 1)%Z ->
    exists row,
      last (loop (S fuel) month remP1 remP2 paid) = Some row
      /\ GigogneRow.month row = nm1
      /\ GigogneRow.remainingCapitalP1 row = 0.
Proof using Type.
  induction fuel as [|fuel IH]; intros month remP1 remP2 paid Hm.
  - unfold loop. cbn [gigogneLoop].
    replace (month <=? nm1)%Z with true by (symmetry; apply Z.leb_le; lia).
    replace (month =? nm1)%Z with true by (symmetry; apply Z.eqb_eq; lia).
    replace (Qltb 0 0) with false by reflexivity.
    destruct (month <=? nm2)%Z; cbv beta iota zeta;
      (eexists; split; [reflexivity|]; cbn; split; [lia | reflexivity]).
  - unfold loop in *. remember (S fuel) as k eqn:Hk.
    cbn [gigogneLoop].
    replace (month <=? nm1)%Z with true by (symmetry; apply Z.leb_le; lia).
    destruct (month <=? nm2)%Z; cbv beta iota zeta; rewrite last_cons;
      match goal with
      | |- context [gigogneLoop _ _ _ _ _ _ _ k ?m ?a ?b ?c] =>
          destruct (IH m a b c ltac:(lia)) as (row & Hlast & Hrow);
          rewrite Hk in *; rewrite Hlast; exists row; split;
          [reflexivity | exact Hrow]
      end.
Qed.

End GigogneSchedule.

(** X18. With rates that are not negative, the gigogne schedule of a
    primary loan over [n1] years and a secondary loan over [n2 <= n1] years
    ([0 < n2]) has [n1 * 12] rows; in every row
    the borrower pays the same smoothed payment, split between the two
    tranches, each tranche's payment is its interest plus its principal, and
    no remaining capital is negative; from month [n2 * 12] on nothing
    remains of the secondary loan, and the last row leaves nothing at all. *)
Theorem generateGigogneAmortizationTable_invariants
    (p1 r1 : Q) (n1 : Z) (p2 r2 : Q) (n2 : Z) (insuranceRate : Q) :
  0 <= r1 -> 0 <= r2 -> (0 < n2)%Z -> (n2 <= n1)%Z ->
  let table :=
    generateGigogneAmortizationTable p1 r1 n1 p2 r2 n2 insuranceRate in
  Z.of_nat (length table) = (n1 * 12)%Z
  /\ Forall (gigogneRow_ok (calcSmoothMensuality p1 r1 n1 p2 r2 n2)) table
  /\ Forall (fun row =>
               (n2 * 12 <= GigogneRow.month row)%Z ->
               GigogneRow.remainingCapitalP2 row == 0) table
  /\ exists row,
       last table = Some row
       /\ GigogneRow.month row = (n1 * 12)%Z
       /\ GigogneRow.remainingCapitalP1 row = 0
       /\ GigogneRow.remainingCapital row == 0.
Proof.
  intros Hr1 Hr2 Hn2 Hn table. subst table.
  unfold generateGigogneAmortizationTable. cbv zeta.
  split; [rewrite gigogneLoop_length; lia|].
  split; [apply gigogneLoop_rows|].
  assert (Hsec := gigogneLoop_secondary_repaid
                    (calcSmoothMensuality p1 r1 n1 p2 r2 n2)
                    (secondaryPayment p2 r2 n2) (r1 / 12 / 100) (r2 / 12 / 100)
                    (calcMonthlyInsurance p1 insuranceRate
                     + calcMonthlyInsurance p2 insuranceRate)
                    (n1 * 12) (n2 * 12) (Z.to_nat (n1 * 12)) 1 p1 p2 0
                    ltac:(lia)).
  split; [exact Hsec|].
  destruct (Z.to_nat (n1 * 12)) as [|k] eqn:Hk; [lia|].
  destruct (gigogneLoop_last
              (calcSmoothMensuality p1 r1 n1 p2 r2 n2)
              (secondaryPayment p2 r2 n2) (r1 / 12 / 100) (r2 / 12 / 100)
              (calcMonthlyInsurance p1 insuranceRate
               + calcMonthlyInsurance p2 insuranceRate)
              (n1 * 12) (n2 * 12) k 1 p1 p2 0 ltac:(lia))
    as (row & Hlast & Hmonth & Hrem1).
  exists row. split; [exact Hlast|]. split; [exact Hmonth|].
  split; [exact Hrem1|].
  pose proof (gigogneLoop_rows
                (calcSmoothMensuality p1 r1 n1 p2 r2 n2)
                (secondaryPayment p2 r2 n2) (r1 / 12 / 100) (r2 / 12 / 100)
                (calcMonthlyInsurance p1 insuranceRate
                 + calcMonthlyInsurance p2 insuranceRate)
                (n1 * 12) (n2 * 12) (S k) 1 p1 p2 0) as Hrows.
  apply last_Some_elem_of in Hlast.
  rewrite Forall_forall in Hsec, Hrows.
  destruct (Hrows row Hlast) as (_ & _ & _ & _ & _ & _ & Htot).
  rewrite Htot, Hrem1, (Hsec row Hlast) by lia. reflexivity.
Qed.

Lemma generateGigogneAmortizationTable_invariants_witness :
  let table := generateGigogneAmortizationTable 600 3 2 400 1 1 0.0012 in
  Z.of_nat (length table) = (2 * 12)%Z
  /\ Forall (gigogneRow_ok (calcSmoothMensuality 600 3 2 400 1 1)) table
  /\ Forall (fun row =>
               (1 * 12 <= GigogneRow.month row)%Z ->
               GigogneRow.remainingCapitalP2 row == 0) table
  /\ exists row,
       last table = Some row
       /\ GigogneRow.month row = (2 * 12)%Z
       /\ GigogneRow.remainingCapitalP1 row = 0
       /\ GigogneRow.remainingCapital row == 0.
Proof.
  exact (generateGigogneAmortizationTable_invariants 600 3 2 400 1 1 0.0012
           ltac:(discriminate) ltac:(discriminate) ltac:(lia) ltac:(lia)).
Defined.

(** ** The gigogne capacity *)

Lemma secondaryPayment_factor (p2 r2 : Q) (n2 : Z) :
  0 <= r2 -> (0 < n2)%Z ->
  secondaryPayment p2 r2 n2
  == p2 / calcAnnuityFactor (r2 / 12 / 100) (n2 * 12).
Proof.
  intros Hr Hn. unfold secondaryPayment, calcAnnuityFactor. cbv zeta.
  destruct (Qeq_bool (r2 / 12 / 100) 0) eqn:E; [reflexivity|].
  apply Qeq_bool_false in E.
  assert (Hm : 0 < r2 / 12 / 100).
  { assert (H : 0 <= r2 / 12 / 100) by (rewrite monthly_rate_scale; lra).
    lra. }
  set (m := r2 / 12 / 100) in *.
  assert (Hg : 1 < (1 + m) ^ (n2 * 12))
    by (apply Qpower_1_lt; [lra | lia]).
  unfold Math_pow. rewrite Qpower_opp.
  set (g := (1 + m) ^ (n2 * 12)) in *.
  assert (Hi : 0 < / g) by (apply Qinv_lt_0_compat; lra).
  assert (Hgi : g * / g == 1) by (apply Qmult_inv_r; lra).
  assert (Hlt : / g < 1).
  { assert (H : 0 < (g - 1) * / g) by (apply Qmult_lt_0_compat; lra). lra. }
  field. repeat split; try lra.
Qed.

Section GigogneCapacity.

Variables (monthlyPayment r1 : Q) (n1 : Z) (r2 : Q) (n2 : Z) (maxP2 : Q).
Hypothesis budget_nonneg : 0 <= monthlyPayment.
Hypothesis r1_nonneg : 0 <= r1.
Hypothesis r2_nonneg : 0 <= r2.
Hypothesis n1_pos : (0 < n1)%Z.
Hypothesis n2_pos : (0 < n2)%Z.
Hypothesis maxP2_nonneg : 0 <= maxP2.

Let rm1 : Q := r1 / 12 / 100.
Let A11 : Q := calcAnnuityFactor rm1 (n1 * 12).
Let A12 : Q := calcAnnuityFactor rm1 (n2 * 12).
Let A22 : Q := calcAnnuityFactor (r2 / 12 / 100) (n2 * 12).

Lemma capacity_factors :
  0 <= rm1 /\ 0 < A11 /\ rm1 * A11 <= 1 /\ 0 < A12 /\ 0 < A22
  /\ 0 < A12 / A22 /\ 0 <= monthlyPayment * A11.
Proof using budget_nonneg r1_nonneg r2_nonneg n1_pos n2_pos.
  assert (H1 : 0 <= rm1) by (unfold rm1; rewrite monthly_rate_scale; lra).
  assert (H2 : 0 <= r2 / 12 / 100) by (rewrite monthly_rate_scale; lra).
  destruct (calcAnnuityFactor_bounds rm1 (n1 * 12) H1 ltac:(lia)) as [Ha Hb].
  destruct (calcAnnuityFactor_bounds rm1 (n2 * 12) H1 ltac:(lia)) as [Hc _].
  destruct (calcAnnuityFactor_bounds (r2 / 12 / 100) (n2 * 12) H2 ltac:(lia))
    as [Hd _].
  fold A11 in Ha, Hb. fold A12 in Hc. fold A22 in Hd.
  repeat split; try assumption.
  - apply Qlt_shift_div_l; [exact Hd|]. rewrite Qmult_0_l. exact Hc.
  - apply Qmult_le_0_compat; lra.
Qed.

(** A split that uses up the capacity is smoothed into the budget. *)
Lemma smooth_of_split (p1 p2 : Q) :
  0 <= p1 -> 0 <= p2 ->
  p1 == monthlyPayment * A11 - p2 * (A12 / A22) ->
  calcSmoothMensuality p1 r1 n1 p2 r2 n2 == monthlyPayment.
Proof using budget_nonneg r1_nonneg r2_nonneg n1_pos n2_pos.
  intros H1 H2 Hsplit.
  destruct capacity_factors as (_ & Ha & _ & Hb & Hc & _ & _).
  rewrite calcSmoothMensuality_formula by assumption.
  rewrite secondaryPayment_factor by assumption.
  fold rm1. fold A11. fold A12. fold A22.
  rewrite Hsplit.
  set (a := A11) in *. set (b := A12) in *. set (c := A22) in *.
  clearbody a b c. field. split; lra.
Qed.

(** What the three branches of [calcMaxLoanWithGigogne] have in common. *)
Lemma calcMaxLoanWithGigogne_split :
  let result := calcMaxLoanWithGigogne monthlyPayment r1 n1 r2 n2 maxP2 in
  let p1 := GigogneCapacity.p1 result in
  let p2 := GigogneCapacity.p2 result in
  0 <= p1 /\ 0 <= p2 /\ p2 <= maxP2
  /\ GigogneCapacity.totalLoan result = p1 + p2
  /\ p1 == monthlyPayment * A11 - p2 * (A12 / A22)
  /\ p1 * rm1 - 0.01 <= monthlyPayment - p2 / A22.
Proof using budget_nonneg r1_nonneg r2_nonneg n1_pos n2_pos maxP2_nonneg.
  destruct capacity_factors as (Hrm & Ha & Hra & Hb & Hc & Hratio & Hcap).
  cbv zeta. unfold calcMaxLoanWithGigogne. cbv zeta.
  fold rm1. fold A11. fold A12. fold A22.
  set (ratio := A12 / A22) in *.
  set (cap := monthlyPayment * A11) in *.
  set (check := checkNegAmort monthlyPayment cap ratio A22 rm1).
  assert (Hcheck : forall v, check v = true ->
                     (cap - v * ratio) * rm1 - 0.01 <= monthlyPayment - v / A22).
  { intros v Hv. unfold check, checkNegAmort in Hv. cbv zeta in Hv.
    apply Qle_bool_iff in Hv. exact Hv. }
  assert (Hzero : (cap - 0 * ratio) * rm1 - 0.01 <= monthlyPayment - 0 / A22).
  { assert (E : rm1 * cap == monthlyPayment * (rm1 * A11))
      by (unfold cap; ring).
    assert (Hle : monthlyPayment * (rm1 * A11) <= monthlyPayment * 1).
    { destruct (Qeq_dec monthlyPayment 0) as [E0 | E0].
      - rewrite E0. lra.
      - apply Qmult_le_l; [lra | exact Hra]. }
    assert (E2 : 0 / A22 == 0) by (unfold Qdiv; ring).
    rewrite E2. lra. }
  assert (Hsearch : forall high, 0 <= high ->
            let v := binarySearch check 20 0 high 0 in
            0 <= v /\ v <= high
            /\ (cap - v * ratio) * rm1 - 0.01 <= monthlyPayment - v / A22).
  { intros high Hhigh v.
    destruct (binarySearch_bounds check 20 0 high 0 high) as [H0 H1]; try lra.
    fold v in H0, H1. split; [exact H0|]. split; [exact H1|].
    destruct (binarySearch_checked check 20 0 high 0 (or_introl eq_refl))
      as [Hz | Hc2]; fold v in Hz || fold v in Hc2.
    - rewrite Hz. exact Hzero.
    - apply Hcheck, Hc2. }
  destruct (Qltb (cap - maxP2 * ratio) 0) eqn:B1; cbv beta iota zeta.
  - apply Qltb_true in B1.
    assert (Hdiv : cap / ratio * ratio == cap) by (field; lra).
    assert (Hd0 : 0 <= cap / ratio).
    { apply Qle_shift_div_l; [exact Hratio|]. rewrite Qmult_0_l. exact Hcap. }
    assert (Hd1 : cap / ratio <= maxP2).
    { apply Qle_shift_div_r; [exact Hratio | lra]. }
    destruct (check (cap / ratio)) eqn:C; cbv beta iota zeta;
      cbn [GigogneCapacity.p1 GigogneCapacity.p2 GigogneCapacity.totalLoan].
    + pose proof (Hcheck _ C) as Hc1.
      repeat split; try lra.
      assert (E : (cap - cap / ratio * ratio) == 0) by (rewrite Hdiv; ring).
      rewrite E in Hc1. lra.
    + destruct (Hsearch (cap / ratio) Hd0) as (H0 & H1 & H2). cbv zeta in *.
      set (v := binarySearch check 20 0 (cap / ratio) 0) in *.
      assert (Hv : v * ratio <= cap / ratio * ratio)
        by (apply Qmult_le_compat_r; lra).
      repeat split; try lra.
  - apply Qltb_false in B1.
    destruct (check maxP2) eqn:C; cbv beta iota zeta;
      cbn [GigogneCapacity.p1 GigogneCapacity.p2 GigogneCapacity.totalLoan].
    + pose proof (Hcheck _ C) as Hc1. repeat split; try lra.
    + destruct (Hsearch maxP2 maxP2_nonneg) as (H0 & H1 & H2). cbv zeta in *.
      set (v := binarySearch check 20 0 maxP2 0) in *.
      assert (Hv : v * ratio <= maxP2 * ratio)
        by (apply Qmult_le_compat_r; lra).
      repeat split; try lra.
Qed.

End GigogneCapacity.

(** X19. The split returned by [calcMaxLoanWithGigogne] uses the budget
    exactly: both parts are non-negative, the secondary part does not exceed
    its maximum, the total is their sum, and [calcSmoothMensuality] applied
    to the split gives back the monthly payment. *)
Theorem calcMaxLoanWithGigogne_smooths_to_budget
    (monthlyPayment r1 : Q) (n1 : Z) (r2 : Q) (n2 : Z) (maxP2 : Q) :
  0 <= monthlyPayment -> 0 <= r1 -> 0 <= r2 -> (0 < n1)%Z -> (0 < n2)%Z ->
  0 <= maxP2 ->
  let result := calcMaxLoanWithGigogne monthlyPayment r1 n1 r2 n2 maxP2 in
  let p1 := GigogneCapacity.p1 result in
  let p2 := GigogneCapacity.p2 result in
  0 <= p1 /\ 0 <= p2 /\ p2 <= maxP2
  /\ GigogneCapacity.totalLoan result = p1 + p2
  /\ calcSmoothMensuality p1 r1 n1 p2 r2 n2 == monthlyPayment.
Proof.
  intros HM Hr1 Hr2 Hn1 Hn2 Hmax result p1 p2.
  destruct (calcMaxLoanWithGigogne_split monthlyPayment r1 n1 r2 n2 maxP2
              HM Hr1 Hr2 Hn1 Hn2 Hmax) as (H1 & H2 & H3 & H4 & H5 & _).
  cbv zeta in *. fold result in H1, H2, H3, H4, H5.
  fold p1 in H1, H4, H5. fold p2 in H2, H3, H4, H5.
  repeat split; try assumption.
  apply smooth_of_split; assumption.
Qed.

Lemma calcMaxLoanWithGigogne_smooths_to_budget_witness :
  let result := calcMaxLoanWithGigogne 100 3 2 1 1 500 in
  let p1 := GigogneCapacity.p1 result in
  let p2 := GigogneCapacity.p2 result in
  0 <= p1 /\ 0 <= p2 /\ p2 <= 500
  /\ GigogneCapacity.totalLoan result = p1 + p2
  /\ calcSmoothMensuality p1 3 2 p2 1 1 == 100.
Proof.
  exact (calcMaxLoanWithGigogne_smooths_to_budget 100 3 2 1 1 500
           ltac:(discriminate) ltac:(discriminate) ltac:(discriminate)
           ltac:(reflexivity) ltac:(reflexivity) ltac:(discriminate)).
Defined.

(** X20. The split returned by [calcMaxLoanWithGigogne] has no negative
    amortization: what the budget leaves for the primary tranche once the
    secondary payment is taken covers the monthly interest of the primary
    tranche, up to the tolerance [0.01]. *)
Theorem calcMaxLoanWithGigogne_no_negative_amortization
    (monthlyPayment r1 : Q) (n1 : Z) (r2 : Q) (n2 : Z) (maxP2 : Q) :
  0 <= monthlyPayment -> 0 <= r1 -> 0 <= r2 -> (0 < n1)%Z -> (0 < n2)%Z ->
  0 <= maxP2 ->
  let result := calcMaxLoanWithGigogne monthlyPayment r1 n1 r2 n2 maxP2 in
  let p1 := GigogneCapacity.p1 result in
  let p2 := GigogneCapacity.p2 result in
  p1 * (r1 / 12 / 100) - 0.01
  <= monthlyPayment - secondaryPayment p2 r2 n2.
Proof.
  intros HM Hr1 Hr2 Hn1 Hn2 Hmax result p1 p2.
  destruct (calcMaxLoanWithGigogne_split monthlyPayment r1 n1 r2 n2 maxP2
              HM Hr1 Hr2 Hn1 Hn2 Hmax) as (_ & _ & _ & _ & _ & H).
  cbv zeta in H. fold result in H. fold p1 in H. fold p2 in H.
  rewrite secondaryPayment_factor by assumption. exact H.
Qed.

Lemma calcMaxLoanWithGigogne_no_negative_amortization_witness :
  let result := calcMaxLoanWithGigogne 100 3 2 1 1 500 in
  let p1 := GigogneCapacity.p1 result in
  let p2 := GigogneCapacity.p2 result in
  p1 * (3 / 12 / 100) - 0.01 <= 100 - secondaryPayment p2 1 1.
Proof.
  exact (calcMaxLoanWithGigogne_no_negative_amortization 100 3 2 1 1 500
           ltac:(discriminate) ltac:(discriminate) ltac:(discriminate)
           ltac:(reflexivity) ltac:(reflexivity) ltac:(discriminate)).
Defined.

(** ** The lists of revenues and charges *)

Lemma ids_filter_sublist (P : Item.t -> Prop) `{!forall x, Decision (P x)}
    (l : list Item.t) :
  sublist (map Item.id (filter P l)) (map Item.id l).
Proof.
  induction l as [|x l IH]; [constructor|].
  rewrite filter_cons. destruct (decide (P x)); cbn [map].
  - apply sublist_skip, IH.
  - apply sublist_cons, IH.
Qed.

Lemma sublist_Forall_below (c : Z) (l1 l2 : list Z) :
  sublist l1 l2 -> Forall (fun i => (i < c)%Z) l2 ->
  Forall (fun i => (i < c)%Z) l1.
Proof.
  induction 1 as [|x l1 l2 _ IH|x l1 l2 _ IH]; intros H.
  - constructor.
  - apply Forall_cons in H as [Hx H]. constructor; auto.
  - apply Forall_cons in H as [_ H]. auto.
Qed.

Lemma ids_fresh_sublist (s s' : ItemStore.t) :
  ItemStore.idCounter s' = ItemStore.idCounter s ->
  sublist (ItemStore.ids s') (ItemStore.ids s) ->
  ItemStore.ids_fresh s -> ItemStore.ids_fresh s'.
Proof.
  intros Hc Hsub [Hnd Hlt]. split.
  - exact (sublist_NoDup _ _ Hnd Hsub).
  - rewrite Hc. exact (sublist_Forall_below _ _ _ Hsub Hlt).
Qed.

Lemma ids_fresh_insert (c : Z) (l1 l2 : list Z) :
  NoDup (l1 ++ l2) -> Forall (fun i => (i < c)%Z) (l1 ++ l2) ->
  NoDup ((l1 ++ [c]) ++ l2)
  /\ Forall (fun i => (i < c + 1)%Z) ((l1 ++ [c]) ++ l2).
Proof.
  intros Hnd Hlt.
  assert (Hperm : (l1 ++ [c]) ++ l2 ≡ₚ c :: (l1 ++ l2)).
  { rewrite <- app_assoc. cbn [app]. symmetry. apply Permutation_middle. }
  split.
  - rewrite Hperm. apply NoDup_cons. split; [|exact Hnd].
    intros Hin. rewrite Forall_forall in Hlt. specialize (Hlt c Hin). lia.
  - rewrite Hperm. constructor; [lia|].
    apply (Forall_impl _ _ _ Hlt). intros x Hx. lia.
Qed.

Lemma filter_keeps_older (c : Z) (l : list Item.t) :
  Forall (fun i => (i < c)%Z) (map Item.id l) ->
  filter (fun r => negb (Item.id r =? c)%Z) l = l.
Proof.
  induction l as [|x l IH]; intros H; [reflexivity|].
  cbn [map] in H. apply Forall_cons in H as [Hx H].
  rewrite filter_cons.
  destruct (decide (negb (Item.id x =? c)%Z)) as [_ | Hno].
  - f_equal. apply IH, H.
  - exfalso. apply Hno. destruct (Z.eqb_spec (Item.id x) c); [lia | exact I].
Qed.

(** X21. The ids handed out stay unique: if the ids in use are pairwise
    different and below the counter, they still are after [addRevenue],
    [addCharge], [removeRevenue] and [removeCharge]; the id given to a new
    item is the counter. *)
Theorem ItemStore_ids_stay_fresh
    (s : ItemStore.t) (item : ItemStore.input) (id : Z) :
  ItemStore.ids_fresh s ->
  ItemStore.ids_fresh (fst (ItemStore.addRevenue item s))
  /\ ItemStore.ids_fresh (fst (ItemStore.addCharge item s))
  /\ ItemStore.ids_fresh (ItemStore.removeRevenue id s)
  /\ ItemStore.ids_fresh (ItemStore.removeCharge id s)
  /\ Item.id (snd (ItemStore.addRevenue item s)) = ItemStore.idCounter s
  /\ Item.id (snd (ItemStore.addCharge item s)) = ItemStore.idCounter s.
Proof.
  intros Hfresh. pose proof Hfresh as [Hnd Hlt].
  unfold ItemStore.ids in Hnd, Hlt.
  split; [|split; [|split; [|split; [|split; reflexivity]]]].
  - unfold ItemStore.ids_fresh, ItemStore.ids, ItemStore.addRevenue.
    cbn [fst ItemStore.revenues ItemStore.charges ItemStore.idCounter].
    rewrite map_app. cbn [map ItemStore.withId Item.id].
    apply ids_fresh_insert; assumption.
  - unfold ItemStore.ids_fresh, ItemStore.ids, ItemStore.addCharge.
    cbn [fst ItemStore.revenues ItemStore.charges ItemStore.idCounter].
    rewrite map_app. cbn [map ItemStore.withId Item.id].
    rewrite app_assoc.
    destruct (ids_fresh_insert (ItemStore.idCounter s)
                (map Item.id (ItemStore.revenues s)
                 ++ map Item.id (ItemStore.charges s)) [])
      as [H1 H2]; rewrite ?app_nil_r; try assumption.
    rewrite app_nil_r in H1, H2. split; assumption.
  - apply (ids_fresh_sublist s); [reflexivity | | exact Hfresh].
    unfold ItemStore.ids, ItemStore.removeRevenue.
    cbn [ItemStore.revenues ItemStore.charges].
    apply sublist_app; [apply ids_filter_sublist | reflexivity].
  - apply (ids_fresh_sublist s); [reflexivity | | exact Hfresh].
    unfold ItemStore.ids, ItemStore.removeCharge.
    cbn [ItemStore.revenues ItemStore.charges].
    apply sublist_app; [reflexivity | apply ids_filter_sublist].
Qed.

Lemma ItemStore_initial_fresh : ItemStore.ids_fresh ItemStore.initial.
Proof.
  split.
  - apply NoDup_cons. split; [|constructor]. intros H. inversion H.
  - repeat constructor.
Qed.

Lemma ItemStore_ids_stay_fresh_witness :
  ItemStore.ids_fresh
    (fst (ItemStore.addRevenue ItemStore.defaultRevenue ItemStore.initial))
  /\ ItemStore.ids_fresh
       (fst (ItemStore.addCharge ItemStore.defaultRevenue ItemStore.initial))
  /\ ItemStore.ids_fresh (ItemStore.removeRevenue 1 ItemStore.initial)
  /\ ItemStore.ids_fresh (ItemStore.removeCharge 1 ItemStore.initial)
  /\ Item.id (snd (ItemStore.addRevenue ItemStore.defaultRevenue
                                       ItemStore.initial))
     = ItemStore.idCounter ItemStore.initial
  /\ Item.id (snd (ItemStore.addCharge ItemStore.defaultRevenue
                                      ItemStore.initial))
     = ItemStore.idCounter ItemStore.initial.
Proof.
  exact (ItemStore_ids_stay_fresh ItemStore.initial ItemStore.defaultRevenue 1
           ItemStore_initial_fresh).
Defined.

(** X22. Adding an item and removing it again by the id that was returned
    gives back the list as it was (revenues and charges alike), and a
    removal does not touch the other list. *)
Theorem ItemStore_add_then_remove
    (s : ItemStore.t) (item : ItemStore.input) :
  ItemStore.ids_fresh s ->
  ItemStore.revenues
    (ItemStore.removeRevenue (Item.id (snd (ItemStore.addRevenue item s)))
                             (fst (ItemStore.addRevenue item s)))
  = ItemStore.revenues s
  /\ ItemStore.charges
       (ItemStore.removeRevenue (Item.id (snd (ItemStore.addRevenue item s)))
                                (fst (ItemStore.addRevenue item s)))
     = ItemStore.charges s
  /\ ItemStore.charges
       (ItemStore.removeCharge (Item.id (snd (ItemStore.addCharge item s)))
                               (fst (ItemStore.addCharge item s)))
     = ItemStore.charges s
  /\ ItemStore.revenues
       (ItemStore.removeCharge (Item.id (snd (ItemStore.addCharge item s)))
                               (fst (ItemStore.addCharge item s)))
     = ItemStore.revenues s.
Proof.
  intros [_ Hlt]. unfold ItemStore.ids in Hlt.
  apply Forall_app in Hlt as [Hrev Hch].
  unfold ItemStore.removeRevenue, ItemStore.removeCharge,
    ItemStore.addRevenue, ItemStore.addCharge.
  cbn [fst snd ItemStore.revenues ItemStore.charges ItemStore.withId Item.id].
  assert (Hnew : forall i,
    filter (fun r => negb (Item.id r =? ItemStore.idCounter s)%Z)
           [ItemStore.withId (ItemStore.idCounter s) i]
    = []).
  { intros i. rewrite filter_cons. unfold ItemStore.withId. cbn [Item.id].
    destruct (decide _) as [Hyes | _]; [|reflexivity].
    rewrite Z.eqb_refl in Hyes. destruct Hyes. }
  repeat split; try reflexivity.
  - rewrite filter_app, Hnew, app_nil_r. apply filter_keeps_older, Hrev.
  - rewrite filter_app, Hnew, app_nil_r. apply filter_keeps_older, Hch.
Qed.

Lemma ItemStore_add_then_remove_witness :
  let s := ItemStore.initial in
  let item := ItemStore.defaultRevenue in
  ItemStore.revenues
    (ItemStore.removeRevenue (Item.id (snd (ItemStore.addRevenue item s)))
                             (fst (ItemStore.addRevenue item s)))
  = ItemStore.revenues s
  /\ ItemStore.charges
       (ItemStore.removeRevenue (Item.id (snd (ItemStore.addRevenue item s)))
                                (fst (ItemStore.addRevenue item s)))
     = ItemStore.charges s
  /\ ItemStore.charges
       (ItemStore.removeCharge (Item.id (snd (ItemStore.addCharge item s)))
                               (fst (ItemStore.addCharge item s)))
     = ItemStore.charges s
  /\ ItemStore.revenues
       (ItemStore.removeCharge (Item.id (snd (ItemStore.addCharge item s)))
                               (fst (ItemStore.addCharge item s)))
     = ItemStore.revenues s.
Proof.
  exact (ItemStore_add_then_remove ItemStore.initial ItemStore.defaultRevenue
           ItemStore_initial_fresh).
Defined.

(** X23. [reset] does not restore the uniqueness of ids: the default revenue
    it creates takes the old counter value while the counter restarts at 1,
    so after a reset the id in use is not below the counter, and later
    additions can hand the same id out again. *)
Theorem ItemStore_reset_not_fresh (s : ItemStore.t) :
  (1 <= ItemStore.idCounter s)%Z ->
  ItemStore.ids (ItemStore.reset s) = [ItemStore.idCounter s]
  /\ ItemStore.idCounter (ItemStore.reset s) = 1%Z
  /\ ~ ItemStore.ids_fresh (ItemStore.reset s).
Proof.
  intros Hc. split; [reflexivity|]. split; [reflexivity|].
  intros [_ Hlt]. cbn in Hlt. apply Forall_cons in Hlt as [Hlt _]. lia.
Qed.

Lemma ItemStore_reset_not_fresh_witness :
  ItemStore.ids (ItemStore.reset ItemStore.initial)
  = [ItemStore.idCounter ItemStore.initial]
  /\ ItemStore.idCounter (ItemStore.reset ItemStore.initial) = 1%Z
  /\ ~ ItemStore.ids_fresh (ItemStore.reset ItemStore.initial).
Proof.
  exact (ItemStore_reset_not_fresh ItemStore.initial ltac:(cbn; lia)).
Defined.

(** After a reset of the freshly loaded state, the second addition gets the
    id of the default revenue, and removing that id removes both rows. *)
Example ItemStore_reset_duplicate :
  let s1 := ItemStore.reset ItemStore.initial in
  let s2 := fst (ItemStore.addRevenue ItemStore.defaultRevenue s1) in
  let s3 := fst (ItemStore.addRevenue ItemStore.defaultRevenue s2) in
  ItemStore.ids s3 = [2; 1; 2]%Z
  /\ ItemStore.ids (ItemStore.removeRevenue 2 s3) = [1%Z].
Proof. split; reflexivity. Qed.

(** ** Rate interpolation, continued *)

Lemma between_anchors (a b : Q) (t span : Z) :
  (0 <= t <= span)%Z -> (0 < span)%Z ->
  let q := a + (b - a) * inject_Z t / inject_Z span in
  (a <= q /\ q <= b) \/ (b <= q /\ q <= a).
Proof.
  intros Ht Hs q.
  assert (H0 : 0 <= inject_Z t)
    by (change 0 with (inject_Z 0); rewrite <- Zle_Qle; lia).
  assert (H1 : inject_Z t <= inject_Z span) by (rewrite <- Zle_Qle; lia).
  assert (Hsp : 0 < inject_Z span) by (apply inject_Z_pos, Hs).
  set (x := inject_Z t) in *. set (d := inject_Z span) in *.
  assert (Hl0 : 0 <= x / d).
  { apply Qle_shift_div_l; [exact Hsp|]. rewrite Qmult_0_l. exact H0. }
  assert (Hl1 : x / d <= 1).
  { apply Qle_shift_div_r; [exact Hsp|]. rewrite Qmult_1_l. exact H1. }
  assert (Eq : q == a + (b - a) * (x / d)) by (subst q; field; lra).
  set (lam := x / d) in *. clearbody lam.
  destruct (Qlt_le_dec b a) as [Hba | Hab].
  - right.
    assert (Hp1 : 0 <= (a - b) * lam) by (apply Qmult_le_0_compat; lra).
    assert (Hp2 : 0 <= (a - b) * (1 - lam)) by (apply Qmult_le_0_compat; lra).
    rewrite Eq. split; lra.
  - left.
    assert (Hp1 : 0 <= (b - a) * lam) by (apply Qmult_le_0_compat; lra).
    assert (Hp2 : 0 <= (b - a) * (1 - lam)) by (apply Qmult_le_0_compat; lra).
    rewrite Eq. split; lra.
Qed.

(** X24. With the three anchors in the table, a positive duration without
    an entry of its own gets a rate that stays within its neighbours: the
    rate of anchor 15 below 15 years, that of anchor 25 above 25 years, and
    between the rates of the two surrounding anchors otherwise. *)
Theorem interpolateRate_between_anchors
    (duration : Z) (rates : gmap Z Q) (r15 r20 r25 : Q) :
  (0 < duration)%Z ->
  rates !! 15%Z = Some r15 -> rates !! 20%Z = Some r20 ->
  rates !! 25%Z = Some r25 -> rates !! duration = None ->
  exists q,
    interpolateRate duration (Some rates) = Num q
    /\ ((duration < 15)%Z -> q = r15)
    /\ ((25 < duration)%Z -> q = r25)
    /\ ((15 <= duration <= 20)%Z ->
        (r15 <= q /\ q <= r20) \/ (r20 <= q /\ q <= r15))
    /\ ((20 < duration <= 25)%Z ->
        (r20 <= q /\ q <= r25) \/ (r25 <= q /\ q <= r20)).
Proof.
  intros Hpos H15 H20 H25 Hnone.
  rewrite (interpolateRate_complete_table duration rates r15 r20 r25)
    by assumption.
  eexists. split; [reflexivity|].
  destruct (Z.ltb_spec duration 15); [repeat split; intros; lia || reflexivity|].
  destruct (Z.leb_spec duration 20).
  - repeat split; try (intros; lia).
    intros _. apply (between_anchors r15 r20 (duration - 15) (20 - 15)); lia.
  - destruct (Z.leb_spec duration 25).
    + repeat split; try (intros; lia).
      intros _. apply (between_anchors r20 r25 (duration - 20) (25 - 20)); lia.
    + repeat split; intros; lia || reflexivity.
Qed.

Lemma interpolateRate_between_anchors_witness :
  let rates : gmap Z Q := {[ 15%Z := 3.09; 20%Z := 3.17; 25%Z := 3.25 ]} in
  exists q,
    interpolateRate 17 (Some rates) = Num q
    /\ ((17 < 15)%Z -> q = 3.09)
    /\ ((25 < 17)%Z -> q = 3.25)
    /\ ((15 <= 17 <= 20)%Z ->
        (3.09 <= q /\ q <= 3.17) \/ (3.17 <= q /\ q <= 3.09))
    /\ ((20 < 17 <= 25)%Z ->
        (3.17 <= q /\ q <= 3.25) \/ (3.25 <= q /\ q <= 3.17)).
Proof.
  apply (interpolateRate_between_anchors 17); vm_compute; reflexivity.
Defined.
